(** * configurable: a typed registry of configuration variables

    Shallow embedding of [configurable.go] (package [configurable]) and
    proofs about the behaviour of its registry, its coercion functions
    and its file loader.

    Conventions of the embedding
    - a Go [string] is a [string] (a sequence of bytes);
    - [int], [int64] and [time.Duration] are [Z] (64-bit [int]);
    - [float64] is the primitive binary64 [float];
    - every registered name owns exactly one heap cell (package [flag]
      panics when a name is defined twice), so the cell a pointer refers
      to is identified by the name and [c.flags] maps a name to the
      current content of its cell; the slice or map given as a default
      is taken to belong to its slot alone, not shared with another slot;
    - a Go [error] result is an [option error] ([None] is [nil]);
    - a run-time panic is the [Panic] outcome of [result]. *)

From Stdlib Require Import ZArith String Ascii List Floats DecimalString.
From stdpp Require Import gmap strings list fin_maps.

Local Open Scope string_scope.
Local Open Scope list_scope.
Local Open Scope Z_scope.

(** ** Outcomes *)

Inductive result (A : Type) : Type :=
| Return (a : A)
| Panic (reason : string).
Arguments Return {A} a.
Arguments Panic {A} reason.

(** ** Bytes and strings of the Go library *)

Module strings.

(** Position of the first occurrence of the byte [sep], as the pair of
    what is before and what is after it. *)
Fixpoint Cut (s : string) (sep : ascii) : option (string * string) :=
  match s with
  | EmptyString => None
  | String c rest =>
      if Ascii.eqb c sep then Some (EmptyString, rest)
      else match Cut rest sep with
           | Some (before, after) => Some (String c before, after)
           | None => None
           end
  end.

(** [strings.Split(s, sep)] for a one-byte separator: the pieces between
    the occurrences of [sep]; a string without [sep] (the empty string
    too) gives the one-element sequence holding it. *)
Fixpoint Split (s : string) (sep : ascii) : list string :=
  match s with
  | EmptyString => [EmptyString]
  | String c rest =>
      if Ascii.eqb c sep then EmptyString :: Split rest sep
      else match Split rest sep with
           | piece :: pieces => String c piece :: pieces
           | [] => [String c EmptyString]
           end
  end.

(** [strings.SplitN(s, sep, 2)] for a one-byte separator: cut at the
    first occurrence only. *)
Definition SplitN2 (s : string) (sep : ascii) : list string :=
  match Cut s sep with
  | Some (before, after) => [before; after]
  | None => [s]
  end.

Definition is_upper (c : ascii) : bool :=
  (65 <=? nat_of_ascii c)%nat && (nat_of_ascii c <=? 90)%nat.

Definition is_ascii (c : ascii) : bool := (nat_of_ascii c <? 128)%nat.

Definition lower_byte (c : ascii) : ascii :=
  if is_upper c then ascii_of_nat (nat_of_ascii c + 32) else c.

Fixpoint all_bytes (p : ascii -> bool) (s : string) : bool :=
  match s with
  | EmptyString => true
  | String c rest => p c && all_bytes p rest
  end.

Fixpoint map_bytes (f : ascii -> ascii) (s : string) : string :=
  match s with
  | EmptyString => EmptyString
  | String c rest => String (f c) (map_bytes f rest)
  end.

(** [strings.ToLower]: a string of ASCII bytes is lowered byte by byte;
    any other string goes through the Unicode tables, which are the
    parameter [unicode_lower]. *)
Definition ToLower (unicode_lower : string -> string) (s : string) : string :=
  if all_bytes is_ascii s then map_bytes lower_byte s else unicode_lower s.

(** [strings.Join(elems, sep)] *)
Fixpoint Join (elems : list string) (sep : string) : string :=
  match elems with
  | [] => EmptyString
  | [elem] => elem
  | elem :: rest => elem +:+ sep +:+ Join rest sep
  end.

End strings.

Module filepath.

(** The loop of [filepath.Ext], from the last byte backwards, with [/]
    as the path separator. [acc] is what has been walked over. *)
Fixpoint ext_scan (rev_path : list ascii) (acc : string) : string :=
  match rev_path with
  | [] => EmptyString
  | c :: before =>
      if Ascii.eqb c "/" then EmptyString
      else if Ascii.eqb c "." then String c acc
      else ext_scan before (String c acc)
  end.

Definition Ext (path : string) : string :=
  ext_scan (rev (list_ascii_of_string path)) EmptyString.

End filepath.

Module strconv.

Definition is_digit (c : ascii) : bool :=
  (48 <=? nat_of_ascii c)%nat && (nat_of_ascii c <=? 57)%nat.

Definition digit (c : ascii) : Z := Z.of_nat (nat_of_ascii c) - 48.

(** Value of a non-empty string of decimal digits. *)
Fixpoint digits (acc : Z) (s : string) : option Z :=
  match s with
  | EmptyString => Some acc
  | String c rest =>
      if is_digit c then digits (acc * 10 + digit c) rest else None
  end.

(** [strconv.ParseInt(s, 10, 64)]: an optional sign and decimal digits,
    within the 64-bit range; [None] stands for a non-nil error. *)
Definition ParseInt (s : string) : option Z :=
  let '(neg, body) :=
    match s with
    | String c rest =>
        if Ascii.eqb c "+" then (false, rest)
        else if Ascii.eqb c "-" then (true, rest)
        else (false, s)
    | EmptyString => (false, s)
    end in
  match body with
  | EmptyString => None
  | _ =>
      match digits 0 body with
      | None => None
      | Some un =>
          if neg then (if un >? 2 ^ 63 then None else Some (- un))
          else (if un >=? 2 ^ 63 then None else Some un)
      end
  end.

(** [strconv.Atoi]: [ParseInt(s, 10, 0)] with a 64-bit [int]. *)
Definition Atoi (s : string) : option Z := ParseInt s.

(** [strconv.ParseBool]. *)
Definition ParseBool (str : string) : option bool :=
  if existsb (String.eqb str) ["1"; "t"; "T"; "TRUE"; "true"; "True"]
  then Some true
  else if existsb (String.eqb str) ["0"; "f"; "F"; "FALSE"; "false"; "False"]
  then Some false
  else None.

(** [strconv.FormatBool]. *)
Definition FormatBool (b : bool) : string := if b then "true" else "false".

End strconv.

Module time.

Definition Nanosecond : Z := 1.
Definition Microsecond : Z := 1000 * Nanosecond.
Definition Millisecond : Z := 1000 * Microsecond.
Definition Second : Z := 1000 * Millisecond.
Definition Minute : Z := 60 * Second.
Definition Hour : Z := 60 * Minute.

(** The two spellings of the micro sign, as UTF-8 bytes. *)
Definition micro_sign : string :=
  String (ascii_of_nat 194) (String (ascii_of_nat 181) EmptyString).
Definition greek_mu : string :=
  String (ascii_of_nat 206) (String (ascii_of_nat 188) EmptyString).

Definition unitMap (u : string) : option Z :=
  if String.eqb u "ns" then Some Nanosecond
  else if String.eqb u "us" then Some Microsecond
  else if String.eqb u (micro_sign +:+ "s") then Some Microsecond
  else if String.eqb u (greek_mu +:+ "s") then Some Microsecond
  else if String.eqb u "ms" then Some Millisecond
  else if String.eqb u "s" then Some Second
  else if String.eqb u "m" then Some Minute
  else if String.eqb u "h" then Some Hour
  else None.

(** [leadingInt]: the digits at the front of [s], read into a [uint64];
    [None] is the overflow error. *)
Fixpoint leadingInt (x : Z) (s : string) : option (Z * string) :=
  match s with
  | EmptyString => Some (x, s)
  | String c rest =>
      if strconv.is_digit c then
        if x >? 2 ^ 63 / 10 then None
        else
          let x' := x * 10 + strconv.digit c in
          if x' >? 2 ^ 63 then None else leadingInt x' rest
      else Some (x, s)
  end.

(** [leadingFraction]: the digits after the point, as [x / scale]; digits
    beyond what a [uint64] holds are dropped. *)
Fixpoint leadingFraction (x : Z) (scale : float) (overflow : bool)
    (s : string) : Z * float * string :=
  match s with
  | EmptyString => (x, scale, s)
  | String c rest =>
      if strconv.is_digit c then
        if overflow then leadingFraction x scale true rest
        else if x >? (2 ^ 63 - 1) / 10 then leadingFraction x scale true rest
        else
          let y := x * 10 + strconv.digit c in
          if y >? 2 ^ 63 then leadingFraction x scale true rest
          else leadingFraction y (scale * 10)%float false rest
      else (x, scale, s)
  end.

(** The bytes of a unit: everything up to the next digit or point. *)
Fixpoint unit_span (s : string) : string * string :=
  match s with
  | EmptyString => (EmptyString, s)
  | String c rest =>
      if Ascii.eqb c "." || strconv.is_digit c then (EmptyString, s)
      else let '(u, rest') := unit_span rest in (String c u, rest')
  end.

(** Conversions between [uint64] and [float64], for values in range. *)
Definition float64_of_uint64 (n : Z) : float :=
  SF2Prim (binary_normalize prec emax n 0 false).

Definition uint64_of_float64 (x : float) : Z :=
  match Prim2SF x with
  | S754_finite false m e =>
      if 0 <=? e then Z.pos m * 2 ^ e else Z.pos m / 2 ^ (- e)
  | _ => 0
  end.

(** One round of the loop of [time.ParseDuration]: a group made of
    digits, an optional point and more digits, and a unit. The result is
    the value of the group in nanoseconds, a [uint64], and what follows
    the group. *)
Definition group (s : string) : option (Z * string) :=
  match s with
  | EmptyString => None
  | String c0 _ =>
      if negb (Ascii.eqb c0 "." || strconv.is_digit c0) then None
      else
        match leadingInt 0 s with
        | None => None
        | Some (v, s1) =>
            let pre := negb (String.length s =? String.length s1)%nat in
            let '(f, scale, s2, post) :=
              match s1 with
              | String c1 after =>
                  if Ascii.eqb c1 "." then
                    let '(f, scale, s2) := leadingFraction 0 1%float false after in
                    (f, scale, s2,
                     negb (String.length after =? String.length s2)%nat)
                  else (0, 1%float, s1, false)
              | EmptyString => (0, 1%float, s1, false)
              end in
            if negb pre && negb post then None
            else
              let '(u, s3) := unit_span s2 in
              match u with
              | EmptyString => None
              | _ =>
                  match unitMap u with
                  | None => None
                  | Some unit =>
                      if v >? 2 ^ 63 / unit then None
                      else
                        let v1 := v * unit in
                        let v2 :=
                          if 0 <? f then
                            v1 + uint64_of_float64
                                   (float64_of_uint64 f
                                    * (float64_of_uint64 unit / scale))%float
                          else v1 in
                        if (0 <? f) && (v2 >? 2 ^ 63) then None
                        else Some (v2, s3)
                  end
              end
        end
  end.

(** The loop itself; [d] is the sum so far, a [uint64]. Each round
    consumes at least one byte, so [fuel] above the length of [s] is
    never used up ([groups_fuel] below). *)
Fixpoint groups (fuel : nat) (s : string) (d : Z) : option Z :=
  match s with
  | EmptyString => Some d
  | _ =>
      match fuel with
      | O => None
      | S fuel' =>
          match group s with
          | None => None
          | Some (v, rest) =>
              let d' := (d + v) mod 2 ^ 64 in
              if d' >? 2 ^ 63 then None else groups fuel' rest d'
          end
      end
  end.

(** [time.ParseDuration]: an optional sign, then either a bare zero or
    one or more groups of a decimal number and a unit; the result is in
    nanoseconds and [None] stands for a non-nil error. *)
Definition ParseDuration (orig : string) : option Z :=
  let '(neg, s) :=
    match orig with
    | String c rest =>
        if Ascii.eqb c "-" then (true, rest)
        else if Ascii.eqb c "+" then (false, rest)
        else (false, orig)
    | EmptyString => (false, orig)
    end in
  if String.eqb s "0" then Some 0
  else if String.eqb s "" then None
  else
    match groups (S (String.length s)) s 0 with
    | None => None
    | Some d =>
        if neg then Some (- d)
        else if d >? 2 ^ 63 - 1 then None
        else Some d
    end.

End time.

(** ** Decoded values and errors *)

(** The dynamic types a decoded file value ([interface{}]) can have: what
    [encoding/json] produces (nil, float64, string, bool, slice, map) and
    the [int] that the YAML decoder produces for integers. The entries of
    a map are listed in the order in which a [range] loop visits them,
    an order Go leaves unspecified. *)
#[warnings="-register-all"]
Inductive Value : Type :=
| VNil
| VFloat64 (v : float)
| VInt (v : Z)
| VString (v : string)
| VBool (v : bool)
| VSlice (items : list Value)
| VMap (entries : list (string * Value)).

Inductive error : Type :=
| ErrConvert (value : Value) (target : string)
    (* "cannot convert %v to <target>" *)
| ErrInvalidMapItem (pair : string)
    (* "invalid map item: %s" *)
| ErrSyntax (fn : string) (input : string)
    (* the error of a parsing function of strconv or time *)
| ErrSettingKey (key : string) (cause : error)
    (* "error setting key %s: %w" *)
| ErrUnsupportedExtension
    (* "unsupported file extension" *)
| ErrReadFile (filename : string)
    (* the error of os.ReadFile *)
| ErrDecode (format : string).
    (* the error of a decoder *)

(** A Go [map[string]string]: the nil map, which cannot be assigned to, or
    an allocated one. *)
Inductive gomap : Type :=
| nil_map
| make_map (m : gmap string string).

(** ** Collaborators

    What the package takes from outside and this development does not
    define: the conversions between text and [float64], the Unicode case
    tables, the three decoders, the result of converting a [float64] that
    no integer type holds, and the order of a [range] over [c.flags]. *)
Class Runtime : Type := {
  (** [strconv.ParseFloat(s, 64)] *)
  ParseFloat : string -> option float;
  (** [strconv.FormatFloat(v, 'f', -1, 64)] *)
  FormatFloat : float -> string;
  (** [int64(v)] when [v] is infinite, not a number or out of range *)
  convert_out_of_range : float -> Z;
  (** [strings.Map(unicode.ToLower, s)] *)
  unicode_lower : string -> string;
  (** [json.Unmarshal] into a [map[string]interface{}] *)
  json_Unmarshal : string -> option (list (string * Value));
  (** [yaml.Unmarshal] into a [map[string]interface{}] *)
  yaml_Unmarshal : string -> option (list (string * Value));
  (** [ini.Load], then [cfg.Section("").Key(key).String()] *)
  ini_Load : string -> option (string -> string);
  (** the order in which [range] visits a map with these keys *)
  range_order : list string -> list string
}.

(** ** The two composite flag values *)

Module ListFlag.

(** [values] is a pointer to a slice: [None] is the nil pointer. A nil
    slice and an empty slice are both the empty list. *)
Record t : Type := mk { values : option (list string) }.

(** [func (l *ListFlag) Set(value string) error] ([Set] alone is a
    reserved word) *)
Definition Set_ (l : t) (value : string) : t * option error :=
  let current := match values l with None => [] | Some vs => vs end in
  let items := strings.Split value "," in
  (mk (Some (current ++ items)), None).

(** [func (l *ListFlag) String() string] *)
Definition String_ (l : t) : string :=
  match values l with
  | None => EmptyString
  | Some vs => strings.Join vs ","
  end.

End ListFlag.

Module MapFlag.

(** [values] is a pointer to a map: [None] is the nil pointer. *)
Record t : Type := mk { values : option gomap }.

(** The loop of [Set] over the pairs, writing into the map as it goes. *)
Fixpoint set_pairs (pairs : list string) (vals : gomap)
    : result (gomap * option error) :=
  match pairs with
  | [] => Return (vals, None)
  | token :: rest =>
      match strings.SplitN2 token "=" with
      | [k; v] =>
          match vals with
          | nil_map => Panic "assignment to entry in nil map"
          | make_map m => set_pairs rest (make_map (<[k := v]> m))
          end
      | _ => Return (vals, Some (ErrInvalidMapItem token))
      end
  end.

(** [func (m *MapFlag) Set(value string) error] *)
Definition Set_ (m : t) (value : string) : result (t * option error) :=
  let vals := match values m with None => make_map ∅ | Some vs => vs end in
  let pairs := strings.Split value "," in
  match set_pairs pairs vals with
  | Return (vals', err) => Return (mk (Some vals'), err)
  | Panic reason => Panic reason
  end.

(** [func (m *MapFlag) String() string]: the entries are rendered in the
    order in which [range] visits the map; a nil map has none. *)
Definition String_ `{RT : Runtime} (m : t) : string :=
  match values m with
  | None => EmptyString
  | Some nil_map => EmptyString
  | Some (make_map vals) =>
      let entries :=
        omap (fun k => (fun v => k +:+ "=" +:+ v) <$> vals !! k)
             (range_order (elements (dom vals))) in
      strings.Join entries ","
  end.

End MapFlag.

(** ** Slots

    What [c.flags] holds under a name: a pointer of one of eight types.
    The pointer is the name; the constructor carries the pointee. *)
Inductive Slot : Type :=
| PInt (v : Z)
| PInt64 (v : Z)
| PFloat64 (v : float)
| PString (v : string)
| PBool (v : bool)
| PDuration (v : Z)
| PListFlag (l : ListFlag.t)
| PMapFlag (m : MapFlag.t).

(** The dynamic type of the pointer a slot holds. *)
Inductive Kind : Type :=
| KInt | KInt64 | KFloat64 | KString | KBool | KDuration | KListFlag | KMapFlag.

Definition kind (cell : Slot) : Kind :=
  match cell with
  | PInt _ => KInt
  | PInt64 _ => KInt64
  | PFloat64 _ => KFloat64
  | PString _ => KString
  | PBool _ => KBool
  | PDuration _ => KDuration
  | PListFlag _ => KListFlag
  | PMapFlag _ => KMapFlag
  end.

(** ** Type coercion *)

Section Coercion.

Context `{RT : Runtime}.

(** [int64(v)] for a [float64]: truncation toward zero. *)
Definition int64_of_float64 (v : float) : Z :=
  match Prim2SF v with
  | S754_zero _ => 0
  | S754_finite sign m e =>
      let magnitude :=
        if 0 <=? e then Z.pos m * 2 ^ e else Z.pos m / 2 ^ (- e) in
      let z := if sign then - magnitude else magnitude in
      if (- 2 ^ 63 <=? z) && (z <? 2 ^ 63) then z
      else convert_out_of_range v
  | _ => convert_out_of_range v
  end.

Definition lift {A : Type} (fn input : string) (parsed : option A)
    : A + error :=
  match parsed with
  | Some a => inl a
  | None => inr (ErrSyntax fn input)
  end.

Definition toInt (value : Value) : Z + error :=
  match value with
  | VFloat64 v => inl (int64_of_float64 v)
  | VString v => lift "Atoi" v (strconv.Atoi v)
  | _ => inr (ErrConvert value "int")
  end.

Definition toInt64 (value : Value) : Z + error :=
  match value with
  | VFloat64 v => inl (int64_of_float64 v)
  | VString v => lift "ParseInt" v (strconv.ParseInt v)
  | _ => inr (ErrConvert value "int64")
  end.

Definition toFloat64 (value : Value) : float + error :=
  match value with
  | VFloat64 v => inl v
  | VString v => lift "ParseFloat" v (ParseFloat v)
  | _ => inr (ErrConvert value "float64")
  end.

Definition toString (value : Value) : string + error :=
  match value with
  | VString v => inl v
  | VFloat64 v => inl (FormatFloat v)
  | VBool v => inl (strconv.FormatBool v)
  | _ => inr (ErrConvert value "string")
  end.

Definition toBool (value : Value) : bool + error :=
  match value with
  | VBool v => inl v
  | VString v => lift "ParseBool" v (strconv.ParseBool v)
  | _ => inr (ErrConvert value "bool")
  end.

(** The loop of [toStringSlice] over the items of a decoded sequence. *)
Fixpoint items_to_strings (items : list Value) (result : list string)
    : list string + error :=
  match items with
  | [] => inl result
  | item :: rest =>
      match toString item with
      | inr err => inr err
      | inl str => items_to_strings rest (result ++ [str])
      end
  end.

Definition toStringSlice (value : Value) : list string + error :=
  match value with
  | VSlice v => items_to_strings v []
  | VString v =>
      if String.eqb v "" then inl [] else inl (strings.Split v ",")
  | _ => inr (ErrConvert value "[]string")
  end.

(** The loop of [toStringMap] over the entries of a decoded map. *)
Fixpoint entries_to_strings (entries : list (string * Value))
    (result : gmap string string) : gmap string string + error :=
  match entries with
  | [] => inl result
  | (key, val) :: rest =>
      match toString val with
      | inr err => inr err
      | inl strVal => entries_to_strings rest (<[key := strVal]> result)
      end
  end.

(** The loop of [toStringMap] over the pairs of a raw string. *)
Fixpoint pairs_to_map (pairs : list string) (result : gmap string string)
    : gmap string string + error :=
  match pairs with
  | [] => inl result
  | token :: rest =>
      match strings.SplitN2 token "=" with
      | [k; v] => pairs_to_map rest (<[k := v]> result)
      | _ => inr (ErrInvalidMapItem token)
      end
  end.

Definition toStringMap (value : Value) : gmap string string + error :=
  match value with
  | VMap v => entries_to_strings v ∅
  | VString v =>
      if String.eqb v "" then inl ∅
      else pairs_to_map (strings.Split v ",") ∅
  | _ => inr (ErrConvert value "map[string]string")
  end.

(** The loop of [setValue] that writes every entry of [mapVal] into the
    map behind [ptr.values]: with nothing to write the pointer is not
    even followed. *)
Definition merge_into (target : option gomap) (mapVal : gmap string string)
    : result (option gomap) :=
  if decide (mapVal = ∅) then Return target
  else
    match target with
    | None => Panic "nil pointer dereference"
    | Some nil_map => Panic "assignment to entry in nil map"
    | Some (make_map m) => Return (Some (make_map (mapVal ∪ m)))
    end.

(** [func (c *Configurable) setValue(flagVal, value interface{}) error]:
    the cell behind [flagVal] after the call, and the error returned. *)
Definition setValue (flagVal : Slot) (value : Value)
    : result (Slot * option error) :=
  match flagVal with
  | PInt _ =>
      match toInt value with
      | inr err => Return (flagVal, Some err)
      | inl intVal => Return (PInt intVal, None)
      end
  | PInt64 _ =>
      match toInt64 value with
      | inr err => Return (flagVal, Some err)
      | inl int64Val => Return (PInt64 int64Val, None)
      end
  | PFloat64 _ =>
      match toFloat64 value with
      | inr err => Return (flagVal, Some err)
      | inl floatVal => Return (PFloat64 floatVal, None)
      end
  | PString _ =>
      match toString value with
      | inr err => Return (flagVal, Some err)
      | inl strVal => Return (PString strVal, None)
      end
  | PBool _ =>
      match toBool value with
      | inr err => Return (flagVal, Some err)
      | inl boolVal => Return (PBool boolVal, None)
      end
  | PDuration _ =>
      match toString value with
      | inr err => Return (flagVal, Some err)
      | inl strVal =>
          match time.ParseDuration strVal with
          | None => Return (flagVal, Some (ErrSyntax "ParseDuration" strVal))
          | Some duration => Return (PDuration duration, None)
          end
      end
  | PListFlag ptr =>
      match toStringSlice value with
      | inr err => Return (flagVal, Some err)
      | inl listVal =>
          match ListFlag.values ptr with
          | None => Panic "nil pointer dereference"
          | Some vs => Return (PListFlag (ListFlag.mk (Some (vs ++ listVal))), None)
          end
      end
  | PMapFlag ptr =>
      match toStringMap value with
      | inr err => Return (flagVal, Some err)
      | inl mapVal =>
          match merge_into (MapFlag.values ptr) mapVal with
          | Panic reason => Panic reason
          | Return vals => Return (PMapFlag (MapFlag.mk vals), None)
          end
      end
  end.

End Coercion.

(** ** Package flag

    Of the command line only the set of defined names matters here:
    [flag.Var] (and [flag.Int], [flag.String], ... built on it) panics on
    an ill-formed name and on a name defined before. *)
Module flag.

Definition FlagSet : Type := gset string.

Definition begins_with_dash (name : string) : bool :=
  match name with
  | String c _ => Ascii.eqb c "-"
  | EmptyString => false
  end.

Definition contains_equals (name : string) : bool :=
  match strings.Cut name "=" with
  | Some _ => true
  | None => false
  end.

Definition Var (CommandLine : FlagSet) (name : string) : result FlagSet :=
  if begins_with_dash name then Panic "flag begins with -"
  else if contains_equals name then Panic "flag contains ="
  else if decide (name ∈ CommandLine) then Panic "flag redefined"
  else Return ({[name]} ∪ CommandLine).

End flag.

(** ** The registry *)

Record Configurable : Type := mkConfigurable { flags : gmap string Slot }.

(** The environment of the process and the files it can read. *)
Record World : Type := mkWorld {
  environ : gmap string string;
  files : gmap string string
}.

Section Registry.

Context `{RT : Runtime}.

(** [func New() IConfigurable] *)
Definition New : Configurable := mkConfigurable ∅.

(** [c.flags[name] = ptr] *)
Definition store (c : Configurable) (name : string) (cell : Slot)
    : Configurable :=
  mkConfigurable (<[name := cell]> (flags c)).

(** The common shape of the eight registration methods: define the
    flag, then record the pointer to its fresh cell. *)
Definition register (CommandLine : flag.FlagSet) (c : Configurable)
    (name : string) (cell : Slot) : result (flag.FlagSet * Configurable) :=
  match flag.Var CommandLine name with
  | Panic reason => Panic reason
  | Return CommandLine' => Return (CommandLine', store c name cell)
  end.

Definition NewInt CommandLine c (name : string) (value : Z) (usage : string) :=
  register CommandLine c name (PInt value).

Definition NewInt64 CommandLine c (name : string) (value : Z) (usage : string) :=
  register CommandLine c name (PInt64 value).

Definition NewFloat64 CommandLine c (name : string) (value : float) (usage : string) :=
  register CommandLine c name (PFloat64 value).

Definition NewDuration CommandLine c (name : string) (value : Z) (usage : string) :=
  register CommandLine c name (PDuration value).

Definition NewString CommandLine c (name : string) (value : string) (usage : string) :=
  register CommandLine c name (PString value).

Definition NewBool CommandLine c (name : string) (value : bool) (usage : string) :=
  register CommandLine c name (PBool value).

(** [l := &ListFlag{values: &value}] *)
Definition NewList CommandLine c (name : string) (value : list string)
    (usage : string) :=
  register CommandLine c name (PListFlag (ListFlag.mk (Some value))).

(** [m := &MapFlag{values: &value}] *)
Definition NewMap CommandLine c (name : string) (value : gomap)
    (usage : string) :=
  register CommandLine c name (PMapFlag (MapFlag.mk (Some value))).

(** [func (c *Configurable) checkAndSetFromEnv(name string)]: the error
    of [setValue] is dropped. *)
Definition checkAndSetFromEnv (w : World) (c : Configurable) (name : string)
    : result Configurable :=
  match environ w !! name with
  | Some val =>
      match flags c !! name with
      | Some flagVal =>
          match setValue flagVal (VString val) with
          | Panic reason => Panic reason
          | Return (cell, _) => Return (store c name cell)
          end
      | None => Return c
      end
  | None => Return c
  end.

(** The common shape of the eight getters: look at the environment,
    then assert the type of what [c.flags] holds. A getter returns the
    registry after the call and the pointee of the pointer it returns,
    [None] for the nil pointer. *)
Definition getter {A : Type} (select : Slot -> option A) (w : World)
    (c : Configurable) (name : string) : result (Configurable * option A) :=
  match checkAndSetFromEnv w c name with
  | Panic reason => Panic reason
  | Return c' => Return (c', flags c' !! name ≫= select)
  end.

Definition Int :=
  getter (fun cell => match cell with PInt v => Some v | _ => None end).

Definition Int64 :=
  getter (fun cell => match cell with PInt64 v => Some v | _ => None end).

Definition Float64 :=
  getter (fun cell => match cell with PFloat64 v => Some v | _ => None end).

Definition Duration :=
  getter (fun cell => match cell with PDuration v => Some v | _ => None end).

Definition String_ :=
  getter (fun cell => match cell with PString v => Some v | _ => None end).

Definition Bool :=
  getter (fun cell => match cell with PBool v => Some v | _ => None end).

(** [return ptr.values] *)
Definition List_ :=
  getter (fun cell =>
            match cell with PListFlag ptr => ListFlag.values ptr | _ => None end).

(** [return ptr.values] *)
Definition Map :=
  getter (fun cell =>
            match cell with PMapFlag ptr => MapFlag.values ptr | _ => None end).

(** [func (c *Configurable) setValuesFromMap(data) error]; [data] lists
    the entries of the map in the order the [range] loop visits them. *)
Fixpoint setValuesFromMap (c : Configurable) (data : list (string * Value))
    : result (Configurable * option error) :=
  match data with
  | [] => Return (c, None)
  | (key, value) :: rest =>
      match flags c !! key with
      | Some flagVal =>
          match setValue flagVal value with
          | Panic reason => Panic reason
          | Return (cell, Some err) =>
              Return (store c key cell, Some (ErrSettingKey key err))
          | Return (cell, None) => setValuesFromMap (store c key cell) rest
          end
      | None => setValuesFromMap c rest
      end
  end.

Definition loadJSON (c : Configurable) (data : string)
    : result (Configurable * option error) :=
  match json_Unmarshal data with
  | None => Return (c, Some (ErrDecode "json"))
  | Some jsonData => setValuesFromMap c jsonData
  end.

Definition loadYAML (c : Configurable) (data : string)
    : result (Configurable * option error) :=
  match yaml_Unmarshal data with
  | None => Return (c, Some (ErrDecode "yaml"))
  | Some yamlData => setValuesFromMap c yamlData
  end.

(** [iniData] gets an entry for every registered name with a non-empty
    value in the unnamed section. *)
Definition loadINI (c : Configurable) (data : string)
    : result (Configurable * option error) :=
  match ini_Load data with
  | None => Return (c, Some (ErrDecode "ini"))
  | Some cfg =>
      let iniData :=
        omap (fun key =>
                let val := cfg key in
                if String.eqb val "" then None else Some (key, VString val))
             (range_order (elements (dom (flags c)))) in
      setValuesFromMap c iniData
  end.

(** [func (c *Configurable) LoadFile(filename string) error] *)
Definition LoadFile (w : World) (c : Configurable) (filename : string)
    : result (Configurable * option error) :=
  match files w !! filename with
  | None => Return (c, Some (ErrReadFile filename))
  | Some data =>
      let ext := strings.ToLower unicode_lower (filepath.Ext filename) in
      if String.eqb ext ".json" then loadJSON c data
      else if String.eqb ext ".yaml" || String.eqb ext ".yml" then loadYAML c data
      else if String.eqb ext ".ini" then loadINI c data
      else Return (c, Some ErrUnsupportedExtension)
  end.

End Registry.

(** ** Stand-ins for closed examples

    A runtime to evaluate the definitions on concrete inputs. It renders
    and reads the floats that are whole numbers, decodes the documents of
    a table, and visits maps in the order of their sorted keys. *)
Module Examples.

Definition dq : string := String (ascii_of_nat 34) EmptyString.

(** The JSON text of an object with one member whose value is [value]. *)
Definition json_member (key value : string) : string :=
  "{" +:+ dq +:+ key +:+ dq +:+ ": " +:+ value +:+ "}".

Definition documents : list (string * list (string * Value)) :=
  [ (json_member "port" "9090", [("port", VFloat64 9090)]);
    (json_member "port" "true", [("port", VBool true)]) ].

Fixpoint decode (table : list (string * list (string * Value)))
    (data : string) : option (list (string * Value)) :=
  match table with
  | [] => None
  | (text, object) :: rest =>
      if String.eqb text data then Some object else decode rest data
  end.

Definition whole (v : float) : Z :=
  match Prim2SF v with
  | S754_finite sign m e =>
      let magnitude :=
        if 0 <=? e then Z.pos m * 2 ^ e else Z.pos m / 2 ^ (- e) in
      if sign then - magnitude else magnitude
  | _ => 0
  end.

Definition format_whole (v : float) : string :=
  match Prim2SF v with
  | S754_zero true => "-0"
  | _ => NilZero.string_of_int (Z.to_int (whole v))
  end.

Definition parse_whole (s : string) : option float :=
  match strconv.ParseInt s with
  | Some z => Some (SF2Prim (binary_normalize prec emax z 0 false))
  | None => None
  end.

Definition runtime : Runtime := {|
  ParseFloat := parse_whole;
  FormatFloat := format_whole;
  convert_out_of_range := fun _ => - 2 ^ 63;
  unicode_lower := fun s => s;
  json_Unmarshal := decode documents;
  yaml_Unmarshal := fun _ => None;
  ini_Load := fun _ => None;
  range_order := fun keys => keys
|}.

Definition no_world : World := mkWorld ∅ ∅.

(** A registry with one slot of each type, and an environment with a
    variable for each of them. *)
Definition settings : Configurable :=
  mkConfigurable
    {[ "port" := PInt 8080;
       "limit" := PInt64 64;
       "ratio" := PFloat64 1;
       "host" := PString "localhost";
       "debug" := PBool false;
       "timeout" := PDuration (5 * time.Second);
       "tags" := PListFlag (ListFlag.mk (Some ["a"]));
       "labels" := PMapFlag (MapFlag.mk (Some (make_map {["x" := "1"]}))) ]}.

Definition overrides : World :=
  mkWorld
    {[ "port" := "9090";
       "limit" := "-7";
       "ratio" := "3";
       "host" := "example.org";
       "debug" := "true";
       "timeout" := "5m";
       "tags" := "b,c";
       "labels" := "y=2" ]}
    ∅.

End Examples.

(** * Properties *)

Section Facts.

Context `{RT : Runtime}.

Lemma store_same c name cell :
  flags c !! name = Some cell -> store c name cell = c.
Proof.
  destruct c as [fl]; unfold store; simpl; intros Hcell.
  by rewrite insert_id.
Qed.

Lemma flags_store c name cell :
  flags (store c name cell) !! name = Some cell.
Proof. unfold store; simpl. apply lookup_insert_eq. Qed.

Lemma flags_store_other c name other cell :
  name ≠ other -> flags (store c name cell) !! other = flags c !! other.
Proof. intros Hne. unfold store; simpl. by apply lookup_insert_ne. Qed.

(** A call of [setValue] that returns an error has not written to the
    cell: every branch coerces first and assigns last. *)
Lemma setValue_error_keeps flagVal value cell err :
  setValue flagVal value = Return (cell, Some err) -> cell = flagVal.
Proof.
  destruct flagVal as [v|v|v|v|v|v|ptr|ptr]; simpl.
  - destruct (toInt value); congruence.
  - destruct (toInt64 value); congruence.
  - destruct (toFloat64 value); congruence.
  - destruct (toString value); congruence.
  - destruct (toBool value); congruence.
  - destruct (toString value) as [strVal|]; [|congruence].
    destruct (time.ParseDuration strVal); congruence.
  - destruct (toStringSlice value); [|congruence].
    destruct (ListFlag.values ptr); congruence.
  - destruct (toStringMap value) as [mapVal|]; [|congruence].
    destruct (merge_into (MapFlag.values ptr) mapVal); congruence.
Qed.

(** The loop of [setValuesFromMap] goes on after the entries that were
    applied without an error. *)
Lemma setValuesFromMap_app c before rest c1 :
  setValuesFromMap c before = Return (c1, None) ->
  setValuesFromMap c (before ++ rest) = setValuesFromMap c1 rest.
Proof.
  revert c. induction before as [|[key value] before IH]; intros c; simpl.
  - congruence.
  - destruct (flags c !! key) as [flagVal|]; [|apply IH].
    destruct (setValue flagVal value) as [[cell [err|]]|reason];
      [congruence|apply IH|congruence].
Qed.

(** Text is cut at its first byte when the pieces are put together. *)
Lemma list_ascii_of_string_app (s1 s2 : string) :
  list_ascii_of_string (s1 +:+ s2)
  = list_ascii_of_string s1 ++ list_ascii_of_string s2.
Proof. induction s1 as [|c s1 IH]; simpl; [done|by rewrite IH]. Qed.

End Facts.

(** ** The loop of [time.ParseDuration] terminates *)

(** What [leadingInt] leaves is a suffix of what it was given. *)
Lemma leadingInt_rest x s v rest :
  time.leadingInt x s = Some (v, rest) -> (String.length rest <= String.length s)%nat.
Proof.
  revert x. induction s as [|c s IH]; intros x; simpl.
  - intros [= _ <-]. done.
  - destruct (strconv.is_digit c).
    + destruct (x >? 2 ^ 63 / 10); [done|].
      destruct (x * 10 + strconv.digit c >? 2 ^ 63); [done|].
      intros Hrest%IH. lia.
    + intros [= _ <-]. done.
Qed.

Lemma leadingFraction_rest x scale overflow s f scale' rest :
  time.leadingFraction x scale overflow s = (f, scale', rest) ->
  (String.length rest <= String.length s)%nat.
Proof.
  revert x scale overflow. induction s as [|c s IH]; intros x scale overflow; simpl.
  - intros [= _ _ <-]. done.
  - destruct (strconv.is_digit c).
    + repeat case_match; intros Hrest%IH; lia.
    + intros [= _ _ <-]. done.
Qed.

Lemma unit_span_rest s u rest :
  time.unit_span s = (u, rest) ->
  String.length s = (String.length u + String.length rest)%nat.
Proof.
  revert u rest. induction s as [|c s IH]; intros u rest; simpl.
  - intros [= <- <-]. done.
  - destruct (Ascii.eqb c "." || strconv.is_digit c).
    + intros [= <- <-]. done.
    + destruct (time.unit_span s) as [u' rest'] eqn:Hspan.
      intros [= <- <-]. simpl. by rewrite (IH _ _ eq_refl).
Qed.

(** A group takes at least the byte of its unit. *)
Lemma group_rest s v rest :
  time.group s = Some (v, rest) -> (String.length rest < String.length s)%nat.
Proof.
  unfold time.group. intros Hgroup.
  repeat (case_match; simplify_eq; try done).
  all: repeat match goal with
       | H : time.leadingInt _ _ = Some _ |- _ => apply leadingInt_rest in H
       | H : time.leadingFraction _ _ _ _ = _ |- _ =>
           apply leadingFraction_rest in H
       | H : time.unit_span _ = _ |- _ => apply unit_span_rest in H
       end.
  all: simpl in *; lia.
Qed.

(** The result of the loop does not depend on the fuel, once it is above
    the length of the text: [None] is always an error of the syntax. *)
Lemma groups_fuel n m s d :
  (String.length s < n)%nat -> (String.length s < m)%nat ->
  time.groups n s d = time.groups m s d.
Proof.
  revert m s d. induction n as [|n IH]; intros m s d Hn Hm; [lia|].
  destruct m as [|m]; [lia|].
  destruct s as [|c0 s']; [done|].
  cbn [time.groups].
  destruct (time.group (String c0 s')) as [[v rest]|] eqn:Hgroup; [|done].
  apply group_rest in Hgroup.
  destruct (_ >? _); [done|].
  apply IH; lia.
Qed.

(** ** Registration and the getters *)

(** A name package [flag] accepts as new: well formed and not defined. *)
Definition definable (CommandLine : flag.FlagSet) (name : string) : Prop :=
  flag.begins_with_dash name = false
  /\ flag.contains_equals name = false
  /\ name ∉ CommandLine.

Lemma register_definable CommandLine c name cell :
  definable CommandLine name ->
  register CommandLine c name cell
  = Return ({[name]} ∪ CommandLine, store c name cell).
Proof.
  intros (Hdash & Heq & Hfresh). unfold register, flag.Var.
  rewrite Hdash, Heq. by rewrite decide_False.
Qed.

Lemma getter_without_environment `{RT : Runtime} {A} (select : Slot -> option A)
    w c name :
  environ w !! name = None ->
  getter select w c name = Return (c, flags c !! name ≫= select).
Proof. intros Henv. unfold getter, checkAndSetFromEnv. by rewrite Henv. Qed.

(** C4. Registering a slot of any of the eight types under a name that is
    new to package [flag], then calling the getter of that type while the
    environment has no variable of that name, returns a non-nil pointer
    to the default value, and leaves the registry as the registration made
    it. *)
Theorem register_then_get_default `{RT : Runtime} w CommandLine c name usage :
  definable CommandLine name ->
  environ w !! name = None ->
  let CommandLine' := {[name]} ∪ CommandLine in
  (forall value, exists c',
      NewInt CommandLine c name value usage = Return (CommandLine', c')
      /\ Int w c' name = Return (c', Some value))
  /\ (forall value, exists c',
      NewInt64 CommandLine c name value usage = Return (CommandLine', c')
      /\ Int64 w c' name = Return (c', Some value))
  /\ (forall value, exists c',
      NewFloat64 CommandLine c name value usage = Return (CommandLine', c')
      /\ Float64 w c' name = Return (c', Some value))
  /\ (forall value, exists c',
      NewString CommandLine c name value usage = Return (CommandLine', c')
      /\ String_ w c' name = Return (c', Some value))
  /\ (forall value, exists c',
      NewBool CommandLine c name value usage = Return (CommandLine', c')
      /\ Bool w c' name = Return (c', Some value))
  /\ (forall value, exists c',
      NewDuration CommandLine c name value usage = Return (CommandLine', c')
      /\ Duration w c' name = Return (c', Some value))
  /\ (forall value, exists c',
      NewList CommandLine c name value usage = Return (CommandLine', c')
      /\ List_ w c' name = Return (c', Some value))
  /\ (forall value, exists c',
      NewMap CommandLine c name value usage = Return (CommandLine', c')
      /\ Map w c' name = Return (c', Some value)).
Proof.
  intros Hnew Henv CommandLine'.
  repeat split; intros value; eexists;
    (split; [by apply register_definable|]);
    (etransitivity; [by apply getter_without_environment|]);
    by rewrite flags_store.
Qed.

Lemma register_then_get_default_witness :
  exists c',
    NewInt ∅ New "port" 8080 "port to listen on"
    = Return ({["port"]} ∪ ∅, c')
    /\ Int (RT := Examples.runtime) Examples.no_world c' "port"
       = Return (c', Some 8080).
Proof.
  assert (Hnew : definable ∅ "port").
  { repeat split; set_solver. }
  assert (Henv : environ Examples.no_world !! "port" = None) by reflexivity.
  exact (proj1 (register_then_get_default (RT := Examples.runtime)
                  Examples.no_world ∅ New "port" "port to listen on"
                  Hnew Henv) 8080).
Defined.

(** ** Map slots *)

(** C7. Setting an empty map slot from the raw string [k1=v1,k2=v2], on
    the command line ([MapFlag.Set]) or through [setValue], gives the
    mapping with exactly the entries k1 to v1 and k2 to v2 (on any
    allocated mapping the two entries are inserted); setting any map slot
    from [bad] fails with the error of an invalid map item and leaves the
    mapping as it was. *)
Theorem map_set_pairs_and_bad `{RT : Runtime} :
  MapFlag.Set_ (MapFlag.mk (Some (make_map ∅))) "k1=v1,k2=v2"
  = Return (MapFlag.mk (Some (make_map {["k1" := "v1"; "k2" := "v2"]})), None)
  /\ setValue (PMapFlag (MapFlag.mk (Some (make_map ∅)))) (VString "k1=v1,k2=v2")
     = Return (PMapFlag (MapFlag.mk (Some (make_map {["k1" := "v1"; "k2" := "v2"]}))),
               None)
  /\ (forall m,
        MapFlag.Set_ (MapFlag.mk (Some (make_map m))) "k1=v1,k2=v2"
        = Return (MapFlag.mk (Some (make_map (<["k2" := "v2"]> (<["k1" := "v1"]> m)))),
                  None))
  /\ (forall m,
        setValue (PMapFlag (MapFlag.mk (Some (make_map m)))) (VString "k1=v1,k2=v2")
        = Return (PMapFlag (MapFlag.mk (Some (make_map (<["k2" := "v2"]> (<["k1" := "v1"]> m))))),
                  None))
  /\ (forall vals,
        MapFlag.Set_ (MapFlag.mk (Some vals)) "bad"
        = Return (MapFlag.mk (Some vals), Some (ErrInvalidMapItem "bad")))
  /\ (forall ptr,
        setValue (PMapFlag ptr) (VString "bad")
        = Return (PMapFlag ptr, Some (ErrInvalidMapItem "bad"))).
Proof.
  assert (Hparsed : toStringMap (VString "k1=v1,k2=v2")
                    = inl (<["k2" := "v2"]> (<["k1" := "v1"]> ∅))) by reflexivity.
  assert (Hnonempty : <["k2" := "v2"]> (<["k1" := "v1"]> (∅ : gmap string string)) ≠ ∅).
  { apply insert_non_empty. }
  split; [by vm_compute|].
  split.
  { unfold setValue. rewrite Hparsed. unfold merge_into; simpl.
    rewrite decide_False by done. by vm_compute. }
  split; [done|].
  split.
  { intros m. unfold setValue. rewrite Hparsed. unfold merge_into; simpl.
    rewrite decide_False by done.
    by rewrite <- !insert_union_l, (left_id_L ∅ (∪)). }
  split; [done|done].
Qed.

(** C3. A set operation that fails must leave the slot as it was, and
    [setValue] does ([setValue_error_keeps]: for the raw string [a=1,bad]
    it returns the error of an invalid map item and the empty mapping
    stays empty). [MapFlag.Set] does not: on the same input it has
    already written the entry a to 1 when it reaches the token [bad], and
    returns the error with that entry left in the mapping. *)
Theorem MapFlag_Set_keeps_entries_written_before_error `{RT : Runtime} :
  MapFlag.Set_ (MapFlag.mk (Some (make_map ∅))) "a=1,bad"
  = Return (MapFlag.mk (Some (make_map {["a" := "1"]})),
            Some (ErrInvalidMapItem "bad"))
  /\ ({["a" := "1"]} : gmap string string) ≠ ∅
  /\ setValue (PMapFlag (MapFlag.mk (Some (make_map ∅)))) (VString "a=1,bad")
     = Return (PMapFlag (MapFlag.mk (Some (make_map ∅))),
               Some (ErrInvalidMapItem "bad")).
Proof.
  split; [by vm_compute|].
  split; [apply insert_non_empty|done].
Qed.

(** ** Loading a decoded map *)

(** C2, as the claim has it, fails: with an integer slot [port] and a
    string slot [host], a decoded map visited in the order [port], [host]
    whose [port] is a boolean returns the error for [port] and never
    looks at [host], which would have coerced. *)
Lemma setValuesFromMap_skips_keys_after_error :
  let c := mkConfigurable
             {["port" := PInt 8080; "host" := PString "localhost"]} in
  let data := [("port", VBool true); ("host", VString "example.org")] in
  setValuesFromMap (RT := Examples.runtime) c data
  = Return (c, Some (ErrSettingKey "port" (ErrConvert (VBool true) "int")))
  /\ flags c !! "host" = Some (PString "localhost")
  /\ setValue (RT := Examples.runtime) (PString "localhost") (VString "example.org")
     = Return (PString "example.org", None).
Proof. split; [by vm_compute|split; by vm_compute]. Qed.

(** C2, amended. [setValuesFromMap] visits the keys of the decoded map
    one at a time and the first coercion error ends the load: the keys
    visited before it stay applied, the slot of the failing key and the
    slots of all keys not yet visited are left as they were, and the
    error returned names the failing key. *)
Theorem setValuesFromMap_halts_at_first_error `{RT : Runtime}
    c before key value rest c1 flagVal cell err :
  setValuesFromMap c before = Return (c1, None) ->
  flags c1 !! key = Some flagVal ->
  setValue flagVal value = Return (cell, Some err) ->
  setValuesFromMap c (before ++ (key, value) :: rest)
  = Return (c1, Some (ErrSettingKey key err)).
Proof.
  intros Hbefore Hslot Hfail.
  rewrite (setValuesFromMap_app _ _ _ _ Hbefore). simpl.
  rewrite Hslot, Hfail.
  rewrite (setValue_error_keeps _ _ _ _ Hfail).
  by rewrite store_same.
Qed.

Lemma setValuesFromMap_halts_at_first_error_witness :
  let c := mkConfigurable
             {["port" := PInt 8080; "host" := PString "localhost";
               "debug" := PBool false]} in
  let c1 := mkConfigurable
              {["port" := PInt 8080; "host" := PString "example.org";
                "debug" := PBool false]} in
  setValuesFromMap (RT := Examples.runtime) c
    ([("host", VString "example.org")]
     ++ ("port", VBool true) :: [("debug", VBool true)])
  = Return (c1, Some (ErrSettingKey "port" (ErrConvert (VBool true) "int"))).
Proof.
  intros c c1.
  apply (setValuesFromMap_halts_at_first_error (RT := Examples.runtime)
           c [("host", VString "example.org")] "port" (VBool true)
           [("debug", VBool true)] c1 (PInt 8080) (PInt 8080)
           (ErrConvert (VBool true) "int")).
  - vm_compute. reflexivity.
  - vm_compute. reflexivity.
  - reflexivity.
Defined.

(** ** List slots *)

Lemma items_to_strings_strings `{RT : Runtime} (strs result : list string) :
  items_to_strings (VString <$> strs) result = inl (result ++ strs).
Proof.
  revert result. induction strs as [|str strs IH]; intros result; simpl.
  - by rewrite app_nil_r.
  - rewrite IH. by rewrite <- app_assoc.
Qed.

Lemma setValue_list_appends `{RT : Runtime} current value cell :
  setValue (PListFlag (ListFlag.mk (Some current))) value = Return (cell, None) ->
  exists added,
    toStringSlice value = inl added
    /\ cell = PListFlag (ListFlag.mk (Some (current ++ added))).
Proof.
  unfold setValue. destruct (toStringSlice value) as [listVal|]; simpl.
  - intros [= <-]. by exists listVal.
  - congruence.
Qed.

(** C6, as the claim has it, fails for a file-loaded sequence and for an
    empty string: the items of a sequence are appended as they are, so
    the item [a,b] stays one element, and the empty string appends
    nothing although splitting it gives one empty token. *)
Lemma list_sequence_items_are_not_split :
  setValue (RT := Examples.runtime)
    (PListFlag (ListFlag.mk (Some []))) (VSlice [VString "a,b"])
  = Return (PListFlag (ListFlag.mk (Some ["a,b"])), None)
  /\ strings.Split "a,b" "," = ["a"; "b"]
  /\ setValue (RT := Examples.runtime)
       (PListFlag (ListFlag.mk (Some ["x"]))) (VString "")
     = Return (PListFlag (ListFlag.mk (Some ["x"])), None)
  /\ strings.Split "" "," = [""].
Proof. repeat split. Qed.

(** C6, amended. Setting a list slot never replaces its contents, every
    set appends to the current sequence: a command-line occurrence
    ([ListFlag.Set]) appends the tokens of its value split on [,]; a
    string from the environment or from a file appends its tokens split
    on [,] when it is not empty and nothing when it is; a file-loaded
    sequence of strings appends its items as they are, without splitting
    them. So loading the sequence a, b and then the sequence c into the
    list slot [tags] leaves it with its earlier contents followed by a,
    b, c, which is a, b, c when it was empty. *)
Theorem list_sets_append `{RT : Runtime} (current : list string) :
  (forall raw,
      ListFlag.Set_ (ListFlag.mk (Some current)) raw
      = (ListFlag.mk (Some (current ++ strings.Split raw ",")), None))
  /\ (forall raw, raw ≠ "" ->
        setValue (PListFlag (ListFlag.mk (Some current))) (VString raw)
        = Return (PListFlag (ListFlag.mk (Some (current ++ strings.Split raw ","))),
                  None))
  /\ setValue (PListFlag (ListFlag.mk (Some current))) (VString "")
     = Return (PListFlag (ListFlag.mk (Some current)), None)
  /\ (forall strs,
        setValue (PListFlag (ListFlag.mk (Some current))) (VSlice (VString <$> strs))
        = Return (PListFlag (ListFlag.mk (Some (current ++ strs))), None))
  /\ (forall value cell,
        setValue (PListFlag (ListFlag.mk (Some current))) value = Return (cell, None) ->
        exists added, cell = PListFlag (ListFlag.mk (Some (current ++ added))))
  /\ (forall c,
        flags c !! "tags" = Some (PListFlag (ListFlag.mk (Some current))) ->
        exists c1 c2,
          setValuesFromMap c [("tags", VSlice [VString "a"; VString "b"])]
          = Return (c1, None)
          /\ setValuesFromMap c1 [("tags", VSlice [VString "c"])]
             = Return (c2, None)
          /\ flags c2 !! "tags"
             = Some (PListFlag (ListFlag.mk (Some (current ++ ["a"; "b"; "c"]))))).
Proof.
  split; [done|].
  split.
  { intros raw Hraw. unfold setValue, toStringSlice.
    destruct (String.eqb_spec raw ""); [done|done]. }
  split; [unfold setValue, toStringSlice; simpl; by rewrite app_nil_r|].
  split.
  { intros strs. unfold setValue, toStringSlice.
    by rewrite items_to_strings_strings. }
  split.
  { intros value cell Hset.
    destruct (setValue_list_appends _ _ _ Hset) as (added & _ & ->).
    by exists added. }
  intros c Htags. do 2 eexists. simpl. rewrite Htags. simpl.
  split; [reflexivity|]. rewrite flags_store. simpl.
  split; [reflexivity|]. rewrite flags_store.
  by rewrite <- app_assoc.
Qed.

Lemma list_sets_append_witness :
  let c := mkConfigurable {["tags" := PListFlag (ListFlag.mk (Some []))]} in
  setValue (RT := Examples.runtime)
    (PListFlag (ListFlag.mk (Some []))) (VString "a,b")
  = Return (PListFlag (ListFlag.mk (Some ([] ++ strings.Split "a,b" ","))), None)
  /\ (exists added,
        PListFlag (ListFlag.mk (Some ["a"; "b"]))
        = PListFlag (ListFlag.mk (Some ([] ++ added))))
  /\ (exists c1 c2,
        setValuesFromMap (RT := Examples.runtime) c
          [("tags", VSlice [VString "a"; VString "b"])] = Return (c1, None)
        /\ setValuesFromMap (RT := Examples.runtime) c1
             [("tags", VSlice [VString "c"])] = Return (c2, None)
        /\ flags c2 !! "tags"
           = Some (PListFlag (ListFlag.mk (Some ([] ++ ["a"; "b"; "c"]))))).
Proof.
  intros c.
  destruct (list_sets_append (RT := Examples.runtime) [])
    as (_ & Hstring & _ & _ & Hkeeps & Hloads).
  split; [apply Hstring; discriminate|].
  split; [apply (Hkeeps (VString "a,b")); reflexivity|].
  apply Hloads. vm_compute. reflexivity.
Defined.

(** ** The environment *)

Lemma getter_with_environment `{RT : Runtime} {A} (select : Slot -> option A)
    w c name val flagVal cell err :
  environ w !! name = Some val ->
  flags c !! name = Some flagVal ->
  setValue flagVal (VString val) = Return (cell, err) ->
  getter select w c name = Return (store c name cell, select cell).
Proof.
  intros Henv Hslot Hset. unfold getter, checkAndSetFromEnv.
  rewrite Henv, Hslot, Hset. by rewrite flags_store.
Qed.

(** Reading a slot whose variable is set, once the cell that [setValue]
    leaves is known. *)
Ltac from_environment Henv Hslot cell :=
  etransitivity;
  [ apply (getter_with_environment _ _ _ _ _ _ cell None Henv Hslot)
  | reflexivity ].

(** C1, as the claim has it, fails for list and map slots: with the list
    slot [tags] holding a and the variable [tags] set to [b], which reads
    as the one-element sequence b, the getter returns a pointer to the
    sequence a, b; with the map slot [labels] holding x to 1 and the
    variable set to [y=2], the getter returns a mapping of two entries. *)
Lemma getter_keeps_earlier_list_and_map_contents :
  let w := mkWorld {["tags" := "b"; "labels" := "y=2"]} ∅ in
  let c := mkConfigurable
             {["tags" := PListFlag (ListFlag.mk (Some ["a"]));
               "labels" := PMapFlag (MapFlag.mk (Some (make_map {["x" := "1"]})))]} in
  toStringSlice (RT := Examples.runtime) (VString "b") = inl ["b"]
  /\ (exists c', List_ (RT := Examples.runtime) w c "tags"
                = Return (c', Some ["a"; "b"]))
  /\ toStringMap (RT := Examples.runtime) (VString "y=2") = inl {["y" := "2"]}
  /\ (exists c', Map (RT := Examples.runtime) w c "labels"
                = Return (c', Some (make_map {["x" := "1"; "y" := "2"]}))).
Proof.
  intros w c.
  split; [reflexivity|].
  split.
  { eexists.
    etransitivity.
    { apply (getter_with_environment (RT := Examples.runtime) _ w c "tags" "b"
               (PListFlag (ListFlag.mk (Some ["a"])))
               (PListFlag (ListFlag.mk (Some ["a"; "b"]))) None);
        by vm_compute. }
    reflexivity. }
  split; [by vm_compute|].
  eexists.
  etransitivity.
  { apply (getter_with_environment (RT := Examples.runtime) _ w c "labels" "y=2"
             (PMapFlag (MapFlag.mk (Some (make_map {["x" := "1"]}))))
             (PMapFlag (MapFlag.mk (Some (make_map {["x" := "1"; "y" := "2"]}))))
             None);
      by vm_compute. }
  reflexivity.
Qed.

(** C1, amended. While the environment has a variable named like a
    registered slot, the getter of the slot's type first applies it. For
    a slot of type int, int64, float64, string, bool or duration and a
    value that parses as that type, the slot is overwritten with the
    parsed value, whatever it held from the flags or a file, and the
    pointer returned refers to that value. For a list slot the tokens of
    a non-empty value are appended to the sequence the slot holds, and
    for a slot holding an allocated mapping the pairs of the value are
    inserted into it, the other keys staying. *)
Theorem getter_applies_environment `{RT : Runtime} w c name val :
  environ w !! name = Some val ->
  (forall old v, flags c !! name = Some (PInt old) ->
      strconv.Atoi val = Some v ->
      Int w c name = Return (store c name (PInt v), Some v))
  /\ (forall old v, flags c !! name = Some (PInt64 old) ->
      strconv.ParseInt val = Some v ->
      Int64 w c name = Return (store c name (PInt64 v), Some v))
  /\ (forall old v, flags c !! name = Some (PFloat64 old) ->
      ParseFloat val = Some v ->
      Float64 w c name = Return (store c name (PFloat64 v), Some v))
  /\ (forall old, flags c !! name = Some (PString old) ->
      String_ w c name = Return (store c name (PString val), Some val))
  /\ (forall old v, flags c !! name = Some (PBool old) ->
      strconv.ParseBool val = Some v ->
      Bool w c name = Return (store c name (PBool v), Some v))
  /\ (forall old v, flags c !! name = Some (PDuration old) ->
      time.ParseDuration val = Some v ->
      Duration w c name = Return (store c name (PDuration v), Some v))
  /\ (forall old, flags c !! name = Some (PListFlag (ListFlag.mk (Some old))) ->
      val ≠ "" ->
      List_ w c name
      = Return (store c name
                  (PListFlag (ListFlag.mk (Some (old ++ strings.Split val ",")))),
                Some (old ++ strings.Split val ",")))
  /\ (forall old parsed,
      flags c !! name = Some (PMapFlag (MapFlag.mk (Some (make_map old)))) ->
      toStringMap (VString val) = inl parsed ->
      Map w c name
      = Return (store c name
                  (PMapFlag (MapFlag.mk (Some (make_map (parsed ∪ old))))),
                Some (make_map (parsed ∪ old)))).
Proof.
  intros Henv.
  repeat split.
  - intros old v Hslot Hparse. from_environment Henv Hslot (PInt v).
    simpl. by rewrite Hparse.
  - intros old v Hslot Hparse. from_environment Henv Hslot (PInt64 v).
    simpl. by rewrite Hparse.
  - intros old v Hslot Hparse. from_environment Henv Hslot (PFloat64 v).
    simpl. by rewrite Hparse.
  - intros old Hslot. by from_environment Henv Hslot (PString val).
  - intros old v Hslot Hparse. from_environment Henv Hslot (PBool v).
    simpl. by rewrite Hparse.
  - intros old v Hslot Hparse. from_environment Henv Hslot (PDuration v).
    unfold setValue; simpl. by rewrite Hparse.
  - intros old Hslot Hval.
    from_environment Henv Hslot
      (PListFlag (ListFlag.mk (Some (old ++ strings.Split val ",")))).
    unfold setValue, toStringSlice.
    destruct (String.eqb_spec val ""); [done|done].
  - intros old parsed Hslot Hparse.
    from_environment Henv Hslot
      (PMapFlag (MapFlag.mk (Some (make_map (parsed ∪ old))))).
    unfold setValue. rewrite Hparse. unfold merge_into; simpl.
    destruct (decide (parsed = ∅)) as [->|]; [|done].
    by rewrite (left_id_L ∅ (∪)).
Qed.

Lemma getter_applies_environment_witness :
  let w := Examples.overrides in
  let c := Examples.settings in
  Int (RT := Examples.runtime) w c "port"
  = Return (store c "port" (PInt 9090), Some 9090)
  /\ Int64 (RT := Examples.runtime) w c "limit"
     = Return (store c "limit" (PInt64 (-7)), Some (-7))
  /\ Float64 (RT := Examples.runtime) w c "ratio"
     = Return (store c "ratio" (PFloat64 3), Some 3%float)
  /\ String_ (RT := Examples.runtime) w c "host"
     = Return (store c "host" (PString "example.org"), Some "example.org")
  /\ Bool (RT := Examples.runtime) w c "debug"
     = Return (store c "debug" (PBool true), Some true)
  /\ Duration (RT := Examples.runtime) w c "timeout"
     = Return (store c "timeout" (PDuration (5 * time.Minute)),
               Some (5 * time.Minute))
  /\ List_ (RT := Examples.runtime) w c "tags"
     = Return (store c "tags"
                 (PListFlag (ListFlag.mk (Some (["a"] ++ strings.Split "b,c" ",")))),
               Some (["a"] ++ strings.Split "b,c" ","))
  /\ Map (RT := Examples.runtime) w c "labels"
     = Return (store c "labels"
                 (PMapFlag (MapFlag.mk
                    (Some (make_map ({["y" := "2"]} ∪ {["x" := "1"]}))))),
               Some (make_map ({["y" := "2"]} ∪ {["x" := "1"]}))).
Proof.
  intros w c.
  split.
  { apply (proj1 (getter_applies_environment (RT := Examples.runtime)
                    w c "port" "9090" ltac:(vm_compute; reflexivity)) 8080 9090);
      vm_compute; reflexivity. }
  split.
  { apply (proj1 (proj2 (getter_applies_environment (RT := Examples.runtime)
                    w c "limit" "-7" ltac:(vm_compute; reflexivity))) 64 (-7));
      vm_compute; reflexivity. }
  split.
  { destruct (getter_applies_environment (RT := Examples.runtime)
                w c "ratio" "3" ltac:(vm_compute; reflexivity))
      as (_ & _ & Hfloat & _).
    apply (Hfloat 1%float 3%float); vm_compute; reflexivity. }
  split.
  { destruct (getter_applies_environment (RT := Examples.runtime)
                w c "host" "example.org" ltac:(vm_compute; reflexivity))
      as (_ & _ & _ & Hstring & _).
    apply (Hstring "localhost"); vm_compute; reflexivity. }
  split.
  { destruct (getter_applies_environment (RT := Examples.runtime)
                w c "debug" "true" ltac:(vm_compute; reflexivity))
      as (_ & _ & _ & _ & Hbool & _).
    apply (Hbool false true); vm_compute; reflexivity. }
  split.
  { destruct (getter_applies_environment (RT := Examples.runtime)
                w c "timeout" "5m" ltac:(vm_compute; reflexivity))
      as (_ & _ & _ & _ & _ & Hduration & _).
    apply (Hduration (5 * time.Second) (5 * time.Minute)); vm_compute; reflexivity. }
  split.
  { destruct (getter_applies_environment (RT := Examples.runtime)
                w c "tags" "b,c" ltac:(vm_compute; reflexivity))
      as (_ & _ & _ & _ & _ & _ & Hlist & _).
    apply (Hlist ["a"]); [vm_compute; reflexivity|discriminate]. }
  destruct (getter_applies_environment (RT := Examples.runtime)
              w c "labels" "y=2" ltac:(vm_compute; reflexivity))
    as (_ & _ & _ & _ & _ & _ & _ & Hmap).
  apply (Hmap {["x" := "1"]} {["y" := "2"]}); vm_compute; reflexivity.
Defined.

(** C9. While the environment has a non-empty variable named like a list
    slot, every call of the [List] getter appends the tokens of the
    variable to the slot again: after two calls in a row the slot holds
    what it held followed by the tokens twice, and each call returns a
    pointer to the sequence as it is after that call. *)
Theorem List_reads_accumulate `{RT : Runtime} w c name old val :
  flags c !! name = Some (PListFlag (ListFlag.mk (Some old))) ->
  environ w !! name = Some val ->
  val ≠ "" ->
  let tokens := strings.Split val "," in
  exists c1 c2,
    List_ w c name = Return (c1, Some (old ++ tokens))
    /\ List_ w c1 name = Return (c2, Some (old ++ tokens ++ tokens))
    /\ flags c2 !! name
       = Some (PListFlag (ListFlag.mk (Some (old ++ tokens ++ tokens)))).
Proof.
  intros Hslot Henv Hval tokens.
  assert (Hset : forall current,
             setValue (PListFlag (ListFlag.mk (Some current))) (VString val)
             = Return (PListFlag (ListFlag.mk (Some (current ++ tokens))), None)).
  { intros current. unfold setValue, toStringSlice.
    destruct (String.eqb_spec val ""); [done|done]. }
  exists (store c name (PListFlag (ListFlag.mk (Some (old ++ tokens))))).
  exists (store (store c name (PListFlag (ListFlag.mk (Some (old ++ tokens)))))
            name (PListFlag (ListFlag.mk (Some (old ++ tokens ++ tokens))))).
  split.
  { from_environment Henv Hslot
      (PListFlag (ListFlag.mk (Some (old ++ tokens)))).
    apply Hset. }
  split.
  { etransitivity.
    { apply (getter_with_environment _ w _ name val
               (PListFlag (ListFlag.mk (Some (old ++ tokens))))
               (PListFlag (ListFlag.mk (Some (old ++ tokens ++ tokens))))
               None Henv (flags_store _ _ _)).
      rewrite Hset. by rewrite <- app_assoc. }
    reflexivity. }
  apply flags_store.
Qed.

Lemma List_reads_accumulate_witness :
  exists c1 c2,
    List_ (RT := Examples.runtime) Examples.overrides Examples.settings "tags"
    = Return (c1, Some (["a"] ++ ["b"; "c"]))
    /\ List_ (RT := Examples.runtime) Examples.overrides c1 "tags"
       = Return (c2, Some (["a"] ++ ["b"; "c"] ++ ["b"; "c"]))
    /\ flags c2 !! "tags"
       = Some (PListFlag (ListFlag.mk (Some (["a"] ++ ["b"; "c"] ++ ["b"; "c"])))).
Proof.
  apply (List_reads_accumulate (RT := Examples.runtime)
           Examples.overrides Examples.settings "tags" ["a"] "b,c").
  - vm_compute. reflexivity.
  - vm_compute. reflexivity.
  - discriminate.
Defined.

(** ** Duration slots *)

(** C8, as the claim has it, fails for zero: a numeric zero is rendered
    as the text [0], which [time.ParseDuration] accepts without a unit,
    so the coercion succeeds and sets the slot to zero; the string [0]
    is accepted likewise. *)
Lemma duration_accepts_zero_without_unit :
  setValue (RT := Examples.runtime) (PDuration (7 * time.Second)) (VFloat64 0)
  = Return (PDuration 0, None)
  /\ setValue (RT := Examples.runtime) (PDuration (7 * time.Second)) (VString "0")
     = Return (PDuration 0, None).
Proof. split; by vm_compute. Qed.

(** C8, amended. Coercing into a duration slot renders the value as text
    (a number in decimal) and parses the text as a duration: the string
    [5m] sets the slot to exactly five minutes; the numeric value 5,
    rendered [5], fails for want of a unit and does not change the slot;
    the numeric value 0, rendered [0], is accepted and sets the slot to
    zero; and no coercion that fails changes the slot. *)
Theorem duration_from_text `{RT : Runtime} old :
  FormatFloat 5 = "5" ->
  FormatFloat 0 = "0" ->
  setValue (PDuration old) (VString "5m")
  = Return (PDuration (5 * time.Minute), None)
  /\ setValue (PDuration old) (VFloat64 5)
     = Return (PDuration old, Some (ErrSyntax "ParseDuration" "5"))
  /\ setValue (PDuration old) (VFloat64 0) = Return (PDuration 0, None)
  /\ (forall value cell err,
        setValue (PDuration old) value = Return (cell, Some err) ->
        cell = PDuration old).
Proof.
  intros Hfive Hzero.
  split; [done|].
  split; [unfold setValue, toString; by rewrite Hfive|].
  split; [unfold setValue, toString; by rewrite Hzero|].
  intros value cell err. apply setValue_error_keeps.
Qed.

Lemma duration_from_text_witness :
  setValue (RT := Examples.runtime) (PDuration time.Second) (VString "5m")
  = Return (PDuration (5 * time.Minute), None)
  /\ setValue (RT := Examples.runtime) (PDuration time.Second) (VFloat64 5)
     = Return (PDuration time.Second, Some (ErrSyntax "ParseDuration" "5"))
  /\ setValue (RT := Examples.runtime) (PDuration time.Second) (VFloat64 0)
     = Return (PDuration 0, None)
  /\ (setValue (RT := Examples.runtime) (PDuration time.Second) (VBool true)
      = Return (PDuration time.Second, Some (ErrSyntax "ParseDuration" "true")) ->
      PDuration time.Second = PDuration time.Second).
Proof.
  destruct (duration_from_text (RT := Examples.runtime) time.Second
              ltac:(vm_compute; reflexivity) ltac:(vm_compute; reflexivity))
    as (Htext & Hfive & Hzero & Hkeeps).
  split; [exact Htext|].
  split; [exact Hfive|].
  split; [exact Hzero|].
  exact (Hkeeps (VBool true) (PDuration time.Second)
           (ErrSyntax "ParseDuration" "true")).
Defined.

(** ** Loading a file *)

(** C5, as the claim has it, fails twice: a file that cannot be read
    gives the error of the read, whatever its extension; and the
    extension is compared after lowering its case, so [settings.JSON],
    whose extension is not [.json], is decoded and applied. *)
Lemma LoadFile_read_error_and_upper_case_extension :
  LoadFile (RT := Examples.runtime) Examples.no_world Examples.settings "settings.txt"
  = Return (Examples.settings, Some (ErrReadFile "settings.txt"))
  /\ filepath.Ext "settings.JSON" = ".JSON"
  /\ LoadFile (RT := Examples.runtime)
       (mkWorld ∅ {["settings.JSON" := Examples.json_member "port" "9090"]})
       Examples.settings "settings.JSON"
     = Return (store Examples.settings "port" (PInt 9090), None).
Proof. split; [by vm_compute|split; by vm_compute]. Qed.

(** C5, amended. [LoadFile] on a file it can read whose extension, once
    lowered, is none of [.json], [.yaml], [.yml], [.ini] returns the
    error of an unsupported extension; on a file it cannot read it
    returns the error of the read; either way every slot is left as it
    was. *)
Theorem LoadFile_unsupported_extension `{RT : Runtime} w c filename :
  let ext := strings.ToLower unicode_lower (filepath.Ext filename) in
  ext ∉ [".json"; ".yaml"; ".yml"; ".ini"] ->
  LoadFile w c filename
  = Return (c, Some (match files w !! filename with
                     | Some _ => ErrUnsupportedExtension
                     | None => ErrReadFile filename
                     end)).
Proof.
  intros ext Hext. unfold LoadFile. fold ext.
  destruct (files w !! filename) as [data|]; [|done].
  rewrite !not_elem_of_cons in Hext.
  destruct Hext as (Hjson & Hyaml & Hyml & Hini & _).
  apply String.eqb_neq in Hjson, Hyaml, Hyml, Hini.
  by rewrite Hjson, Hyaml, Hyml, Hini.
Qed.

Lemma LoadFile_unsupported_extension_witness :
  let w := mkWorld ∅ {["notes.txt" := "port = 9090"]} in
  LoadFile (RT := Examples.runtime) w Examples.settings "notes.txt"
  = Return (Examples.settings, Some ErrUnsupportedExtension).
Proof.
  intros w.
  apply (LoadFile_unsupported_extension (RT := Examples.runtime)
           w Examples.settings "notes.txt").
  rewrite !not_elem_of_cons.
  do 4 (split; [vm_compute; discriminate|]).
  apply not_elem_of_nil.
Defined.

Lemma extension_lowered (lower_runes : string -> string) stem upper lower :
  (upper, lower) ∈ [(".JSON", ".json"); (".Yaml", ".yaml");
                    (".YML", ".yml"); (".INI", ".ini")] ->
  strings.ToLower lower_runes (filepath.Ext (stem +:+ upper)) = lower
  /\ strings.ToLower lower_runes (filepath.Ext (stem +:+ lower)) = lower.
Proof.
  rewrite !elem_of_cons, elem_of_nil.
  intros [[= -> ->]|[[= -> ->]|[[= -> ->]|[[= -> ->]|[]]]]];
    unfold filepath.Ext; rewrite !list_ascii_of_string_app, !rev_app_distr;
    split; reflexivity.
Qed.

(** C10. [LoadFile] lowers the case of the extension before it picks the
    decoder: whatever the contents, loading a readable file whose path
    ends in [.JSON], [.Yaml], [.YML] or [.INI] returns the same error
    and leaves the same registry as loading a file with the same contents
    whose path ends in the lower-case extension. *)
Theorem LoadFile_extension_case `{RT : Runtime} w1 w2 c stem upper lower data :
  (upper, lower) ∈ [(".JSON", ".json"); (".Yaml", ".yaml");
                    (".YML", ".yml"); (".INI", ".ini")] ->
  files w1 !! (stem +:+ upper) = Some data ->
  files w2 !! (stem +:+ lower) = Some data ->
  LoadFile w1 c (stem +:+ upper) = LoadFile w2 c (stem +:+ lower).
Proof.
  intros Hcase Hupper Hlower.
  destruct (extension_lowered unicode_lower stem upper lower Hcase) as [Hu Hl].
  unfold LoadFile. by rewrite Hupper, Hlower, Hu, Hl.
Qed.

Lemma LoadFile_extension_case_witness :
  let text := Examples.json_member "port" "9090" in
  LoadFile (RT := Examples.runtime) (mkWorld ∅ {["etc/app" +:+ ".JSON" := text]})
    Examples.settings ("etc/app" +:+ ".JSON")
  = LoadFile (RT := Examples.runtime) (mkWorld ∅ {["etc/app" +:+ ".json" := text]})
      Examples.settings ("etc/app" +:+ ".json").
Proof.
  intros text.
  apply (LoadFile_extension_case (RT := Examples.runtime) _ _ _
           "etc/app" ".JSON" ".json" text).
  - apply list_elem_of_here.
  - vm_compute. reflexivity.
  - vm_compute. reflexivity.
Defined.

(** * Further properties of the registry *)

(** ** Names and types are fixed at registration *)

(** X1. [setValue] never changes the type of the pointer behind a slot:
    whatever the value and whether it fails or not, the cell it leaves
    has the type of the cell it was given. *)
Theorem setValue_keeps_kind `{RT : Runtime} flagVal value cell err :
  setValue flagVal value = Return (cell, err) -> kind cell = kind flagVal.
Proof.
  destruct flagVal as [v|v|v|v|v|v|ptr|ptr]; unfold setValue;
    repeat case_match; intros Hset; by simplify_eq.
Qed.

Lemma setValue_keeps_kind_witness :
  kind (PDuration (5 * time.Minute)) = kind (PDuration time.Second).
Proof.
  apply (setValue_keeps_kind (RT := Examples.runtime)
           (PDuration time.Second) (VString "5m") (PDuration (5 * time.Minute)) None).
  reflexivity.
Defined.

Lemma kind_after_setValue `{RT : Runtime} flagVal value cell err :
  setValue flagVal value = Return (cell, err) -> kind cell = kind flagVal.
Proof.
  destruct flagVal as [v|v|v|v|v|v|ptr|ptr]; unfold setValue;
    repeat case_match; intros Hset; by simplify_eq.
Qed.

Lemma kind_store c key flagVal cell name :
  flags c !! key = Some flagVal ->
  kind cell = kind flagVal ->
  kind <$> flags (store c key cell) !! name = kind <$> flags c !! name.
Proof.
  intros Hslot Hkind. destruct (decide (key = name)) as [->|Hne].
  - rewrite flags_store, Hslot. simpl. by rewrite Hkind.
  - by rewrite flags_store_other.
Qed.

Lemma setValuesFromMap_kinds `{RT : Runtime} c data c' err name :
  setValuesFromMap c data = Return (c', err) ->
  kind <$> flags c' !! name = kind <$> flags c !! name.
Proof.
  revert c. induction data as [|[key value] data IH]; intros c; simpl.
  - by intros [= <- _].
  - destruct (flags c !! key) as [flagVal|] eqn:Hslot; [|apply IH].
    destruct (setValue flagVal value) as [[cell [e|]]|reason] eqn:Hset;
      [|intros Hrest%IH|done].
    + intros [= <- _]. by apply (kind_store _ _ _ _ _ Hslot), (kind_after_setValue _ _ _ _ Hset).
    + rewrite Hrest. by apply (kind_store _ _ _ _ _ Hslot), (kind_after_setValue _ _ _ _ Hset).
Qed.

(** A slot whose name is not a key of the decoded map is not touched. *)
Lemma setValuesFromMap_other `{RT : Runtime} c data c' err name :
  name ∉ data.*1 ->
  setValuesFromMap c data = Return (c', err) ->
  flags c' !! name = flags c !! name.
Proof.
  revert c. induction data as [|[key value] data IH]; intros c; simpl.
  - by intros _ [= <- _].
  - rewrite not_elem_of_cons. intros [Hne Hrest].
    destruct (flags c !! key) as [flagVal|] eqn:Hslot; [|by apply IH].
    destruct (setValue flagVal value) as [[cell [e|]]|reason] eqn:Hset; [| |done].
    + intros [= <- _]. by rewrite flags_store_other.
    + intros Hload%IH; [|done]. by rewrite Hload, flags_store_other.
Qed.

(** X2. [LoadFile] never registers or removes a name and never changes
    the type of a slot: after any call that returns, with or without an
    error, every name has a slot of the type it had before, or none if it
    had none. *)
Theorem LoadFile_keeps_names_and_kinds `{RT : Runtime} w c filename c' err name :
  LoadFile w c filename = Return (c', err) ->
  kind <$> flags c' !! name = kind <$> flags c !! name.
Proof.
  unfold LoadFile, loadJSON, loadYAML, loadINI.
  repeat case_match; try (by intros [= <- _]); apply setValuesFromMap_kinds.
Qed.

Lemma LoadFile_keeps_names_and_kinds_witness :
  kind <$> flags (store Examples.settings "port" (PInt 9090)) !! "port"
  = kind <$> flags Examples.settings !! "port".
Proof.
  apply (LoadFile_keeps_names_and_kinds (RT := Examples.runtime)
           (mkWorld ∅ {["settings.JSON" := Examples.json_member "port" "9090"]})
           Examples.settings "settings.JSON" _ None "port").
  vm_compute. reflexivity.
Defined.

(** X3. A getter changes at most the slot of the name it is asked for,
    and never the type of that slot: after a call that returns, every
    other name has exactly the slot it had, and the name itself has a
    slot of the same type or still none. *)
Theorem getter_touches_own_slot_only `{RT : Runtime} {A}
    (select : Slot -> option A) w c name c' ptr :
  getter select w c name = Return (c', ptr) ->
  (forall other, other ≠ name -> flags c' !! other = flags c !! other)
  /\ kind <$> flags c' !! name = kind <$> flags c !! name.
Proof.
  unfold getter, checkAndSetFromEnv.
  destruct (environ w !! name) as [val|]; [|by intros [= <- _]].
  destruct (flags c !! name) as [flagVal|] eqn:Hslot;
    [|intros [= <- _]; by rewrite Hslot].
  destruct (setValue flagVal (VString val)) as [[cell e]|reason] eqn:Hset; [|done].
  intros [= <- _]. split.
  - intros other Hne. by rewrite flags_store_other.
  - rewrite <- Hslot.
    by apply (kind_store _ _ _ _ _ Hslot), (kind_after_setValue _ _ _ _ Hset).
Qed.

Lemma getter_touches_own_slot_only_witness :
  (forall other, other ≠ "port" ->
     flags (store Examples.settings "port" (PInt 9090)) !! other
     = flags Examples.settings !! other)
  /\ kind <$> flags (store Examples.settings "port" (PInt 9090)) !! "port"
     = kind <$> flags Examples.settings !! "port".
Proof.
  apply (getter_touches_own_slot_only (RT := Examples.runtime)
           (fun cell => match cell with PInt v => Some v | _ => None end)
           Examples.overrides Examples.settings "port" _ (Some 9090)).
  vm_compute. reflexivity.
Defined.

(** ** What a load changes *)

(** X4. A load changes only the slots named by the keys of the decoded
    map: whether it ends with an error or not, a name that is not among
    the keys has exactly the slot it had. *)
Theorem setValuesFromMap_touches_listed_keys_only `{RT : Runtime}
    c data c' err name :
  setValuesFromMap c data = Return (c', err) ->
  name ∉ data.*1 ->
  flags c' !! name = flags c !! name.
Proof. intros Hload Hname. by apply (setValuesFromMap_other c data c' err). Qed.

Lemma setValuesFromMap_touches_listed_keys_only_witness :
  flags (store Examples.settings "port" (PInt 9090)) !! "host"
  = flags Examples.settings !! "host".
Proof.
  apply (setValuesFromMap_touches_listed_keys_only (RT := Examples.runtime)
           Examples.settings [("port", VFloat64 9090)] _ None "host").
  - vm_compute. reflexivity.
  - simpl. rewrite not_elem_of_cons. split; [discriminate|apply not_elem_of_nil].
Defined.

Lemma setValuesFromMap_registered `{RT : Runtime} c0 c data :
  (forall key, is_Some (flags c0 !! key) <-> is_Some (flags c !! key)) ->
  setValuesFromMap c data
  = setValuesFromMap c (filter (fun entry => is_Some (flags c0 !! entry.1)) data).
Proof.
  revert c. induction data as [|[key value] data IH]; intros c Hsame; [done|].
  rewrite filter_cons. simpl.
  destruct (flags c !! key) as [flagVal|] eqn:Hslot.
  - rewrite decide_True by (apply Hsame; by rewrite Hslot).
    simpl. rewrite Hslot.
    destruct (setValue flagVal value) as [[cell [e|]]|reason]; [done| |done].
    apply IH. intros other. rewrite Hsame.
    destruct (decide (key = other)) as [<-|Hne].
    + rewrite flags_store, Hslot. split; eauto.
    + by rewrite flags_store_other.
  - rewrite decide_False; [by apply IH|].
    rewrite Hsame, Hslot. by intros [? ?].
Qed.

(** X5. Keys of the decoded map that are not registered are skipped
    without an error: a load gives the same registry and the same error
    as the load of the map without them, and a map none of whose keys is
    registered changes nothing and returns no error. *)
Theorem setValuesFromMap_ignores_unknown_keys `{RT : Runtime} c data :
  setValuesFromMap c data
  = setValuesFromMap c (filter (fun entry => is_Some (flags c !! entry.1)) data)
  /\ ((forall key, key ∈ data.*1 -> flags c !! key = None) ->
      setValuesFromMap c data = Return (c, None)).
Proof.
  split; [by apply setValuesFromMap_registered|].
  induction data as [|[key value] data IH]; intros Hunknown; [done|].
  simpl. rewrite Hunknown by (simpl; apply list_elem_of_here).
  apply IH. intros other Hother. apply Hunknown. simpl.
  by apply list_elem_of_further.
Qed.

Lemma setValuesFromMap_ignores_unknown_keys_witness :
  setValuesFromMap (RT := Examples.runtime) Examples.settings
    [("colour", VString "red"); ("depth", VFloat64 3)]
  = Return (Examples.settings, None).
Proof.
  apply (setValuesFromMap_ignores_unknown_keys (RT := Examples.runtime)).
  intros key. simpl. rewrite !elem_of_cons, elem_of_nil.
  intros [->|[->|[]]]; vm_compute; reflexivity.
Defined.

(** X6. What a load without an error has done: when the keys of the
    decoded map are distinct, every key that was registered holds the
    cell that [setValue] makes of its earlier cell and the decoded value,
    and that coercion had no error. *)
Theorem setValuesFromMap_applies_every_key `{RT : Runtime}
    c data c' key value flagVal :
  NoDup data.*1 ->
  setValuesFromMap c data = Return (c', None) ->
  (key, value) ∈ data ->
  flags c !! key = Some flagVal ->
  exists cell,
    setValue flagVal value = Return (cell, None)
    /\ flags c' !! key = Some cell.
Proof.
  revert c. induction data as [|[k v] data IH]; intros c; simpl.
  - intros _ _ Hin. by apply elem_of_nil in Hin.
  - rewrite NoDup_cons. intros [Hfresh Hdup] Hload Hin Hslot.
    apply elem_of_cons in Hin as [[= <- <-]|Hin].
    + rewrite Hslot in Hload.
      destruct (setValue flagVal value) as [[cell [e|]]|reason] eqn:Hset;
        [done| |done].
      exists cell. split; [done|].
      rewrite (setValuesFromMap_other _ _ _ _ key Hfresh Hload).
      apply flags_store.
    + assert (Hne : k ≠ key).
      { intros ->. apply Hfresh. by apply (list_elem_of_fmap_2 fst) in Hin. }
      destruct (flags c !! k) as [other|] eqn:Hother; [|by apply (IH c)].
      destruct (setValue other v) as [[cell [e|]]|reason]; [done| |done].
      apply (IH (store c k cell)); [done|done|done|].
      by rewrite flags_store_other.
Qed.

Lemma setValuesFromMap_applies_every_key_witness :
  exists cell,
    setValue (RT := Examples.runtime) (PString "localhost") (VString "example.org")
    = Return (cell, None)
    /\ flags (store (store Examples.settings "port" (PInt 9090))
                "host" (PString "example.org")) !! "host" = Some cell.
Proof.
  apply (setValuesFromMap_applies_every_key (RT := Examples.runtime)
           Examples.settings
           [("port", VFloat64 9090); ("host", VString "example.org")]).
  - simpl. apply NoDup_cons. split; [|apply NoDup_singleton].
    rewrite list_elem_of_singleton. discriminate.
  - vm_compute. reflexivity.
  - apply list_elem_of_further, list_elem_of_here.
  - vm_compute. reflexivity.
Defined.

(** X7. Two loads without an error in a row do what one load of the two
    decoded maps, one after the other, does. *)
Theorem setValuesFromMap_loads_compose `{RT : Runtime} c first c1 second :
  setValuesFromMap c first = Return (c1, None) ->
  setValuesFromMap c (first ++ second) = setValuesFromMap c1 second.
Proof. apply setValuesFromMap_app. Qed.

Lemma setValuesFromMap_loads_compose_witness :
  setValuesFromMap (RT := Examples.runtime) Examples.settings
    ([("port", VFloat64 9090)] ++ [("host", VString "example.org")])
  = setValuesFromMap (RT := Examples.runtime)
      (store Examples.settings "port" (PInt 9090))
      [("host", VString "example.org")].
Proof.
  apply (setValuesFromMap_loads_compose (RT := Examples.runtime)).
  vm_compute. reflexivity.
Defined.

(** ** More on the environment *)

(** X8. A variable of the environment that does not coerce into the type
    of its slot is ignored without a trace: the getter leaves the
    registry exactly as it was and returns what it returns without the
    variable, a pointer to the value the slot already had. *)
Theorem getter_ignores_unparsable_environment `{RT : Runtime} {A}
    (select : Slot -> option A) w c name val flagVal cell err :
  environ w !! name = Some val ->
  flags c !! name = Some flagVal ->
  setValue flagVal (VString val) = Return (cell, Some err) ->
  getter select w c name = Return (c, select flagVal).
Proof.
  intros Henv Hslot Hset. unfold getter, checkAndSetFromEnv.
  rewrite Henv, Hslot, Hset.
  rewrite (setValue_error_keeps _ _ _ _ Hset), (store_same _ _ _ Hslot).
  by rewrite Hslot.
Qed.

Lemma getter_ignores_unparsable_environment_witness :
  Int (RT := Examples.runtime) (mkWorld {["port" := "eighty"]} ∅)
    Examples.settings "port"
  = Return (Examples.settings, Some 8080).
Proof.
  apply (getter_ignores_unparsable_environment (RT := Examples.runtime)
           (fun cell => match cell with PInt v => Some v | _ => None end)
           (mkWorld {["port" := "eighty"]} ∅) Examples.settings "port" "eighty"
           (PInt 8080) (PInt 8080) (ErrSyntax "Atoi" "eighty")).
  - vm_compute. reflexivity.
  - vm_compute. reflexivity.
  - reflexivity.
Defined.

(** X9. A getter asked for a name that is not registered returns the nil
    pointer and changes nothing. A getter of the wrong type returns the
    nil pointer too, but not before the variable of the environment has
    been applied to the slot: [Int] on a string slot overwrites the
    string, and [Bool] on a list slot appends to the list. *)
Theorem getter_of_missing_or_other_type `{RT : Runtime} w c name :
  (flags c !! name = None ->
   Int w c name = Return (c, None)
   /\ Int64 w c name = Return (c, None)
   /\ Float64 w c name = Return (c, None)
   /\ String_ w c name = Return (c, None)
   /\ Bool w c name = Return (c, None)
   /\ Duration w c name = Return (c, None)
   /\ List_ w c name = Return (c, None)
   /\ Map w c name = Return (c, None))
  /\ (forall old val,
        flags c !! name = Some (PString old) ->
        environ w !! name = Some val ->
        Int w c name = Return (store c name (PString val), None))
  /\ (forall old val,
        flags c !! name = Some (PListFlag (ListFlag.mk (Some old))) ->
        environ w !! name = Some val ->
        val ≠ "" ->
        Bool w c name
        = Return (store c name
                    (PListFlag (ListFlag.mk (Some (old ++ strings.Split val ",")))),
                  None)).
Proof.
  split.
  { intros Hmissing.
    assert (Hget : forall A (select : Slot -> option A),
               getter select w c name = Return (c, None)).
    { intros A select. unfold getter, checkAndSetFromEnv.
      rewrite Hmissing. destruct (environ w !! name); by rewrite Hmissing. }
    repeat split; apply Hget. }
  split.
  - intros old val Hslot Henv. by from_environment Henv Hslot (PString val).
  - intros old val Hslot Henv Hval.
    from_environment Henv Hslot
      (PListFlag (ListFlag.mk (Some (old ++ strings.Split val ",")))).
    unfold setValue, toStringSlice.
    destruct (String.eqb_spec val ""); [done|done].
Qed.

Lemma getter_of_missing_or_other_type_witness :
  Int (RT := Examples.runtime) Examples.overrides Examples.settings "colour"
  = Return (Examples.settings, None)
  /\ Int (RT := Examples.runtime) Examples.overrides Examples.settings "host"
     = Return (store Examples.settings "host" (PString "example.org"), None)
  /\ Bool (RT := Examples.runtime) Examples.overrides Examples.settings "tags"
     = Return (store Examples.settings "tags"
                 (PListFlag (ListFlag.mk (Some (["a"] ++ strings.Split "b,c" ",")))),
               None).
Proof.
  split.
  { apply (proj1 (getter_of_missing_or_other_type (RT := Examples.runtime)
                    Examples.overrides Examples.settings "colour")).
    vm_compute. reflexivity. }
  split.
  { apply (proj1 (proj2 (getter_of_missing_or_other_type (RT := Examples.runtime)
                    Examples.overrides Examples.settings "host")) "localhost");
      vm_compute; reflexivity. }
  apply (proj2 (proj2 (getter_of_missing_or_other_type (RT := Examples.runtime)
                    Examples.overrides Examples.settings "tags")) ["a"]);
    [vm_compute; reflexivity|vm_compute; reflexivity|discriminate].
Defined.

(** Applying the same text twice to a slot that is not a list is the
    same as applying it once. *)
Lemma setValue_again `{RT : Runtime} flagVal val cell err :
  kind flagVal ≠ KListFlag ->
  setValue flagVal (VString val) = Return (cell, err) ->
  setValue cell (VString val) = Return (cell, err).
Proof.
  intros Hkind Hset.
  destruct err as [e|].
  { by pose proof (setValue_error_keeps _ _ _ _ Hset) as ->. }
  destruct flagVal as [v|v|v|v|v|v|ptr|ptr]; unfold setValue in Hset.
  - destruct (toInt (VString val)) eqn:Hto; simplify_eq.
    unfold setValue. by rewrite Hto.
  - destruct (toInt64 (VString val)) eqn:Hto; simplify_eq.
    unfold setValue. by rewrite Hto.
  - destruct (toFloat64 (VString val)) eqn:Hto; simplify_eq.
    unfold setValue. by rewrite Hto.
  - simpl in Hset. by simplify_eq.
  - destruct (toBool (VString val)) eqn:Hto; simplify_eq.
    unfold setValue. by rewrite Hto.
  - simpl in Hset.
    destruct (time.ParseDuration val) eqn:Hto; simplify_eq.
    unfold setValue; simpl. by rewrite Hto.
  - done.
  - destruct (toStringMap (VString val)) as [mapVal|] eqn:Hto; [|done].
    unfold setValue. rewrite Hto.
    unfold merge_into in *.
    destruct (decide (mapVal = ∅)) as [->|Hne].
    + by simplify_eq.
    + destruct (MapFlag.values ptr) as [[|m]|]; [done| |done].
      simplify_eq. simpl.
      by rewrite (assoc_L (∪)), (idemp_L (∪)).
Qed.

(** X10. Reading a slot that is not a list is idempotent: a second call
    of the getter, with the environment as it was, returns what the
    first call returned and leaves the registry as the first call left
    it. *)
Theorem getter_twice_is_once `{RT : Runtime} {A}
    (select : Slot -> option A) w c name c1 ptr :
  (forall l, flags c !! name ≠ Some (PListFlag l)) ->
  getter select w c name = Return (c1, ptr) ->
  getter select w c1 name = Return (c1, ptr).
Proof.
  intros Hnotlist. unfold getter, checkAndSetFromEnv.
  destruct (environ w !! name) as [val|]; [|by intros [= <- <-]].
  destruct (flags c !! name) as [flagVal|] eqn:Hslot.
  - destruct (setValue flagVal (VString val)) as [[cell e]|reason] eqn:Hset; [|done].
    intros [= <- <-]. rewrite !flags_store.
    assert (Hkind : kind flagVal ≠ KListFlag).
    { destruct flagVal as [| | | | | |l|]; try done. destruct (Hnotlist l eq_refl). }
    rewrite (setValue_again flagVal val cell e Hkind Hset).
    by rewrite (store_same (store c name cell) name cell (flags_store _ _ _)).
  - intros [= <- <-]. rewrite Hslot. simpl. by rewrite Hslot.
Qed.

Lemma getter_twice_is_once_witness :
  Map (RT := Examples.runtime) Examples.overrides
    (store Examples.settings "labels"
       (PMapFlag (MapFlag.mk (Some (make_map {["x" := "1"; "y" := "2"]})))))
    "labels"
  = Return (store Examples.settings "labels"
              (PMapFlag (MapFlag.mk (Some (make_map {["x" := "1"; "y" := "2"]})))),
            Some (make_map {["x" := "1"; "y" := "2"]})).
Proof.
  apply (getter_twice_is_once (RT := Examples.runtime) _
           Examples.overrides Examples.settings "labels").
  - intros l. vm_compute. discriminate.
  - vm_compute. reflexivity.
Defined.

(** X11. For a slot of type int, int64, float64, string, bool or
    duration the last assignment wins: what [setValue] leaves and
    returns depends on the type of the slot and on the value only, not
    on what the slot held. *)
Theorem setValue_scalar_forgets_old_value `{RT : Runtime}
    flagVal1 flagVal2 value cell :
  kind flagVal1 = kind flagVal2 ->
  kind flagVal1 ≠ KListFlag ->
  kind flagVal1 ≠ KMapFlag ->
  setValue flagVal1 value = Return (cell, None) ->
  setValue flagVal2 value = Return (cell, None).
Proof.
  intros Hsame Hlist Hmap.
  destruct flagVal1, flagVal2; try done; unfold setValue;
    repeat case_match; intros Hset; by simplify_eq.
Qed.

Lemma setValue_scalar_forgets_old_value_witness :
  setValue (RT := Examples.runtime) (PInt 1) (VString "9090")
  = Return (PInt 9090, None).
Proof.
  apply (setValue_scalar_forgets_old_value (RT := Examples.runtime)
           (PInt 8080) (PInt 1) (VString "9090")); try done.
Defined.

(** ** The two ways to set a map slot *)

Lemma pairs_to_map_set_pairs `{RT : Runtime} pairs acc m :
  match pairs_to_map pairs acc with
  | inl parsed =>
      MapFlag.set_pairs pairs (make_map (acc ∪ m))
      = Return (make_map (parsed ∪ m), None)
  | inr err =>
      exists vals,
        MapFlag.set_pairs pairs (make_map (acc ∪ m)) = Return (vals, Some err)
  end.
Proof.
  revert acc. induction pairs as [|token pairs IH]; intros acc; simpl; [done|].
  destruct (strings.SplitN2 token "=") as [|k [|v [|]]]; try by eexists.
  rewrite insert_union_l. apply IH.
Qed.

(** X12. On a raw string that is not empty, the command-line path
    ([MapFlag.Set]) and the path of the environment and of files
    ([setValue]) agree on a slot that holds an allocated mapping: when
    the string is well formed both leave the mapping with the pairs of
    the string written over it, and when it is not both return the error
    for the same token. *)
Theorem map_set_paths_agree `{RT : Runtime} m raw :
  raw ≠ "" ->
  match toStringMap (VString raw) with
  | inl parsed =>
      MapFlag.Set_ (MapFlag.mk (Some (make_map m))) raw
      = Return (MapFlag.mk (Some (make_map (parsed ∪ m))), None)
      /\ setValue (PMapFlag (MapFlag.mk (Some (make_map m)))) (VString raw)
         = Return (PMapFlag (MapFlag.mk (Some (make_map (parsed ∪ m)))), None)
  | inr err =>
      (exists vals,
          MapFlag.Set_ (MapFlag.mk (Some (make_map m))) raw
          = Return (MapFlag.mk (Some vals), Some err))
      /\ setValue (PMapFlag (MapFlag.mk (Some (make_map m)))) (VString raw)
         = Return (PMapFlag (MapFlag.mk (Some (make_map m))), Some err)
  end.
Proof.
  intros Hraw. unfold setValue, MapFlag.Set_, toStringMap. simpl.
  destruct (String.eqb_spec raw ""); [done|].
  pose proof (pairs_to_map_set_pairs (strings.Split raw ",") ∅ m) as Hagree.
  rewrite (left_id_L ∅ (∪)) in Hagree.
  destruct (pairs_to_map (strings.Split raw ",") ∅) as [parsed|err].
  - rewrite Hagree. split; [done|].
    unfold merge_into. destruct (decide (parsed = ∅)) as [->|]; [|done].
    by rewrite (left_id_L ∅ (∪)).
  - destruct Hagree as [vals ->]. split; [by exists vals|done].
Qed.

Lemma map_set_paths_agree_witness :
  MapFlag.Set_ (MapFlag.mk (Some (make_map {["x" := "1"]}))) "y=2,x=3"
  = Return (MapFlag.mk (Some (make_map ({["y" := "2"; "x" := "3"]} ∪ {["x" := "1"]}))),
            None)
  /\ setValue (RT := Examples.runtime)
       (PMapFlag (MapFlag.mk (Some (make_map {["x" := "1"]})))) (VString "y=2,x=3")
     = Return (PMapFlag (MapFlag.mk
                 (Some (make_map ({["y" := "2"; "x" := "3"]} ∪ {["x" := "1"]})))),
               None).
Proof.
  assert (Hraw : "y=2,x=3" ≠ "") by discriminate.
  pose proof (map_set_paths_agree (RT := Examples.runtime)
                {["x" := "1"]} "y=2,x=3" Hraw) as Hagree.
  assert (Hparsed : toStringMap (RT := Examples.runtime) (VString "y=2,x=3")
                    = inl {["y" := "2"; "x" := "3"]}) by (vm_compute; reflexivity).
  rewrite Hparsed in Hagree. exact Hagree.
Defined.

(** ** Rendering and setting a list slot *)

Lemma Split_not_nil s sep : strings.Split s sep ≠ [].
Proof.
  destruct s as [|c s]; simpl; [done|].
  destruct (Ascii.eqb c sep); [done|].
  by destruct (strings.Split s sep).
Qed.

Lemma Join_cons elem rest sep :
  rest ≠ [] ->
  strings.Join (elem :: rest) sep = elem +:+ sep +:+ strings.Join rest sep.
Proof. by destruct rest. Qed.

Lemma append_assoc (s1 s2 s3 : string) : (s1 +:+ s2) +:+ s3 = s1 +:+ (s2 +:+ s3).
Proof.
  induction s1 as [|c s1 IH]; [done|].
  change (String c ((s1 +:+ s2) +:+ s3) = String c (s1 +:+ (s2 +:+ s3))).
  by f_equal.
Qed.

Lemma Join_app first second sep :
  first ≠ [] -> second ≠ [] ->
  strings.Join (first ++ second) sep
  = strings.Join first sep +:+ sep +:+ strings.Join second sep.
Proof.
  intros Hfirst Hsecond. induction first as [|elem first IH]; [done|].
  destruct first as [|next first].
  - simpl app. by rewrite Join_cons.
  - rewrite <- app_comm_cons, Join_cons by done.
    rewrite IH by done. rewrite (Join_cons elem (next :: first)) by done.
    by rewrite !append_assoc.
Qed.

Lemma Join_Split s : strings.Join (strings.Split s ",") "," = s.
Proof.
  induction s as [|c s IH]; [done|]. simpl.
  destruct (Ascii.eqb_spec c ",") as [->|Hc].
  - rewrite Join_cons by apply Split_not_nil. by rewrite IH.
  - destruct (strings.Split s ",") as [|piece pieces] eqn:Hsplit.
    + by destruct (Split_not_nil s ",").
    + destruct pieces as [|next pieces].
      * simpl in *. by rewrite IH.
      * rewrite Join_cons in IH by done. rewrite Join_cons by done.
        by rewrite <- IH.
Qed.

(** X13. Rendering a list slot gives back what was set: after
    [ListFlag.Set] with any raw string, [ListFlag.String] is that raw
    string when the slot was empty, and otherwise what it was before,
    a comma, and the raw string. *)
Theorem ListFlag_String_after_Set (current : list string) raw :
  ListFlag.String_ (ListFlag.Set_ (ListFlag.mk (Some current)) raw).1
  = match current with
    | [] => raw
    | _ => ListFlag.String_ (ListFlag.mk (Some current)) +:+ "," +:+ raw
    end.
Proof.
  unfold ListFlag.String_, ListFlag.Set_. simpl.
  destruct current as [|elem current]; [apply Join_Split|].
  rewrite Join_app; [|done|apply Split_not_nil].
  by rewrite Join_Split.
Qed.

Lemma Cut_None_Split s : strings.Cut s "," = None -> strings.Split s "," = [s].
Proof.
  induction s as [|c s IH]; simpl; [done|].
  destruct (Ascii.eqb c ","); [done|].
  destruct (strings.Cut s ",") as [[before after]|]; [done|].
  intros _. by rewrite IH.
Qed.

Lemma Split_append elem rest :
  strings.Cut elem "," = None ->
  strings.Split (elem +:+ "," +:+ rest) "," = elem :: strings.Split rest ",".
Proof.
  induction elem as [|c elem IH]; simpl; [done|].
  destruct (Ascii.eqb c ","); [done|].
  destruct (strings.Cut elem ",") as [[before after]|]; [done|].
  intros _. by rewrite IH.
Qed.

Lemma Split_Join elems :
  elems ≠ [] ->
  Forall (fun elem => strings.Cut elem "," = None) elems ->
  strings.Split (strings.Join elems ",") "," = elems.
Proof.
  intros Hnonempty Hfree. induction Hfree as [|elem elems Helem Hfree IH]; [done|].
  destruct elems as [|next elems].
  - by apply Cut_None_Split.
  - rewrite Join_cons by done. rewrite Split_append by done.
    by rewrite IH.
Qed.

(** X14. Setting an empty list slot from the rendering of a list gives
    that list back when the list is not empty and none of its items has
    a comma. The rendering of the empty list does not: it is the empty
    string, and setting from it appends one empty item. *)
Theorem ListFlag_Set_of_String (vs : list string) :
  (vs ≠ [] ->
   Forall (fun item => strings.Cut item "," = None) vs ->
   ListFlag.Set_ (ListFlag.mk (Some [])) (ListFlag.String_ (ListFlag.mk (Some vs)))
   = (ListFlag.mk (Some vs), None))
  /\ ListFlag.Set_ (ListFlag.mk (Some [])) (ListFlag.String_ (ListFlag.mk (Some [])))
     = (ListFlag.mk (Some [""]), None).
Proof.
  split; [|done].
  intros Hnonempty Hfree. unfold ListFlag.Set_, ListFlag.String_. simpl.
  by rewrite Split_Join.
Qed.

Lemma ListFlag_Set_of_String_witness :
  ListFlag.Set_ (ListFlag.mk (Some []))
    (ListFlag.String_ (ListFlag.mk (Some ["a"; "b c"; ""])))
  = (ListFlag.mk (Some ["a"; "b c"; ""]), None).
Proof.
  apply (proj1 (ListFlag_Set_of_String ["a"; "b c"; ""])); [done|].
  repeat constructor.
Defined.

(** ** Rendering and setting a map slot *)

Lemma Cut_append_sep key sep rest :
  strings.Cut key sep = None ->
  strings.Cut (key +:+ String sep rest) sep = Some (key, rest).
Proof.
  induction key as [|c key IH]; simpl.
  - intros _. change (strings.Cut (String sep rest) sep = Some ("", rest)).
    simpl. by rewrite Ascii.eqb_refl.
  - destruct (Ascii.eqb c sep) eqn:Hc; [done|].
    destruct (strings.Cut key sep) as [[before after]|]; [done|].
    intros _. by rewrite IH.
Qed.

Lemma Cut_append_none key value (sep other : ascii) :
  Ascii.eqb other sep = false ->
  strings.Cut key sep = None ->
  strings.Cut value sep = None ->
  strings.Cut (key +:+ String other value) sep = None.
Proof.
  intros Hother. induction key as [|c key IH]; simpl.
  - intros _ Hvalue. change (strings.Cut (String other value) sep = None).
    simpl. by rewrite Hother, Hvalue.
  - destruct (Ascii.eqb c sep) eqn:Hc; [done|].
    destruct (strings.Cut key sep) as [[before after]|]; [done|].
    intros _ Hvalue. by rewrite IH.
Qed.

(** The mapping after the entries of [vals] under the keys [ks] have been
    written into [acc], one after the other. *)
Definition written (vals : gmap string string) (ks : list string)
    (acc : gmap string string) : gmap string string :=
  foldl (fun a k => match vals !! k with Some v => <[k := v]> a | None => a end)
        acc ks.

Lemma set_pairs_rendered vals ks acc :
  (forall k, k ∈ ks -> strings.Cut k "=" = None) ->
  MapFlag.set_pairs
    (omap (fun k => (fun v => k +:+ "=" +:+ v) <$> vals !! k) ks) (make_map acc)
  = Return (make_map (written vals ks acc), None).
Proof.
  revert acc. induction ks as [|k ks IH]; intros acc Hkeys; [done|].
  simpl. destruct (vals !! k) as [v|]; simpl.
  - unfold strings.SplitN2.
    change (k +:+ "=" +:+ v) with (k +:+ String "=" v).
    rewrite (Cut_append_sep k "=" v) by (apply Hkeys, list_elem_of_here).
    apply IH. intros k' Hk'. by apply Hkeys, list_elem_of_further.
  - apply IH. intros k' Hk'. by apply Hkeys, list_elem_of_further.
Qed.

Lemma written_subseteq vals ks acc : acc ⊆ vals -> written vals ks acc ⊆ vals.
Proof.
  revert acc. induction ks as [|k ks IH]; intros acc Hacc; [done|].
  simpl. apply IH. destruct (vals !! k) as [v|] eqn:Hk; [|done].
  by apply insert_subseteq_l.
Qed.

Lemma written_keeps vals ks acc i :
  acc ⊆ vals -> is_Some (acc !! i) -> is_Some (written vals ks acc !! i).
Proof.
  revert acc. induction ks as [|k ks IH]; intros acc Hacc Hi; [done|].
  simpl. destruct (vals !! k) as [v|] eqn:Hk; [|by apply IH].
  apply IH; [by apply insert_subseteq_l|].
  destruct (decide (k = i)) as [->|Hne].
  - rewrite lookup_insert_eq. eauto.
  - by rewrite lookup_insert_ne.
Qed.

Lemma written_all vals ks :
  (forall k, is_Some (vals !! k) -> k ∈ ks) -> written vals ks ∅ = vals.
Proof.
  intros Hall.
  assert (Hsub : written vals ks ∅ ⊆ vals).
  { apply written_subseteq, map_empty_subseteq. }
  assert (Hcover : forall acc i,
             acc ⊆ vals -> i ∈ ks -> is_Some (vals !! i) ->
             is_Some (written vals ks acc !! i)).
  { clear Hall Hsub. induction ks as [|k ks IH]; intros acc i Hacc Hin Hi.
    { by apply elem_of_nil in Hin. }
    simpl. apply elem_of_cons in Hin as [->|Hin].
    - destruct Hi as [v Hv]. rewrite Hv.
      apply written_keeps; [by apply insert_subseteq_l|].
      rewrite lookup_insert_eq. eauto.
    - destruct (vals !! k) as [v|] eqn:Hk; [|by apply IH].
      apply IH; [by apply insert_subseteq_l|done|done]. }
  apply map_eq. intros i.
  destruct (vals !! i) as [v|] eqn:Hv.
  - destruct (Hcover ∅ i (map_empty_subseteq _) (Hall i (mk_is_Some _ _ Hv))
                (mk_is_Some _ _ Hv)) as [v' Hv'].
    rewrite Hv'. f_equal.
    pose proof (lookup_weaken _ _ _ _ Hv' Hsub) as Hboth. congruence.
  - destruct (written vals ks ∅ !! i) as [v'|] eqn:Hv'; [|done].
    pose proof (lookup_weaken _ _ _ _ Hv' Hsub) as Hboth. congruence.
Qed.

(** X15. Setting an empty map slot from the rendering of a mapping gives
    that mapping back, whatever the order in which the rendering visits
    it, when the mapping is not empty, no key has an equals sign or a
    comma and no value has a comma. The rendering of the empty mapping
    does not: it is the empty string, which [MapFlag.Set] rejects. *)
Theorem MapFlag_Set_of_String `{RT : Runtime} (vals : gmap string string) :
  range_order (elements (dom vals)) ≡ₚ elements (dom vals) ->
  (vals ≠ ∅ ->
   (forall k v, vals !! k = Some v ->
      strings.Cut k "=" = None /\ strings.Cut k "," = None
      /\ strings.Cut v "," = None) ->
   MapFlag.Set_ (MapFlag.mk (Some (make_map ∅)))
     (MapFlag.String_ (MapFlag.mk (Some (make_map vals))))
   = Return (MapFlag.mk (Some (make_map vals)), None))
  /\ (vals = ∅ ->
      MapFlag.Set_ (MapFlag.mk (Some (make_map ∅)))
        (MapFlag.String_ (MapFlag.mk (Some (make_map vals))))
      = Return (MapFlag.mk (Some (make_map ∅)), Some (ErrInvalidMapItem ""))).
Proof.
  intros Horder.
  assert (Hin : forall k, k ∈ range_order (elements (dom vals)) <-> is_Some (vals !! k)).
  { intros k. rewrite Horder, elem_of_elements. apply elem_of_dom. }
  split.
  - intros Hnonempty Hplain. unfold MapFlag.Set_, MapFlag.String_. simpl.
    set (ks := range_order (elements (dom vals))) in *.
    set (entries := omap _ ks).
    assert (Hentries : strings.Split (strings.Join entries ",") "," = entries).
    { apply Split_Join.
      - destruct (map_choose vals Hnonempty) as (k & v & Hk).
        assert (Hentry : k +:+ "=" +:+ v ∈ entries).
        { apply list_elem_of_omap. exists k. split; [apply Hin; eauto|].
          by rewrite Hk. }
        intros Hnil. rewrite Hnil in Hentry. by apply elem_of_nil in Hentry.
      - apply Forall_forall. intros entry (k & Hk & Hentry)%list_elem_of_omap.
        destruct (vals !! k) as [v|] eqn:Hv; [|done].
        injection Hentry as <-.
        destruct (Hplain k v Hv) as (_ & Hkey & Hvalue).
        by apply Cut_append_none. }
    rewrite Hentries. unfold entries.
    rewrite set_pairs_rendered.
    + rewrite written_all; [done|]. intros k Hk. by apply Hin.
    + intros k [v Hv]%Hin. by destruct (Hplain k v Hv).
  - intros ->. unfold MapFlag.Set_, MapFlag.String_. simpl.
    rewrite dom_empty_L, elements_empty in *.
    apply Permutation_nil_r in Horder. by rewrite Horder.
Qed.

Lemma MapFlag_Set_of_String_witness :
  MapFlag.Set_ (MapFlag.mk (Some (make_map ∅)))
    (MapFlag.String_ (RT := Examples.runtime)
       (MapFlag.mk (Some (make_map {["x" := "1"; "y" := "a=b"]}))))
  = Return (MapFlag.mk (Some (make_map {["x" := "1"; "y" := "a=b"]})), None).
Proof.
  apply (proj1 (MapFlag_Set_of_String (RT := Examples.runtime)
                  {["x" := "1"; "y" := "a=b"]} (reflexivity _))).
  - apply insert_non_empty.
  - intros k v. rewrite lookup_insert_Some, lookup_singleton_Some.
    intros [[<- <-]|[_ [<- <-]]]; repeat split; reflexivity.
Defined.

(** ** Values that no slot takes *)

Lemma items_to_strings_fails `{RT : Runtime} items item err result :
  item ∈ items ->
  toString item = inr err ->
  exists err', items_to_strings items result = inr err'.
Proof.
  intros Hin Hitem. revert result.
  induction items as [|first items IH]; intros result.
  { by apply elem_of_nil in Hin. }
  simpl. apply elem_of_cons in Hin as [<-|Hin].
  - rewrite Hitem. by eexists.
  - destruct (toString first); [by apply IH|by eexists].
Qed.

(** X16. A decoded sequence is appended to a list slot as a whole or not
    at all: if any of its items is not a string, a number or a boolean,
    [setValue] returns an error and the list keeps exactly its contents,
    the items before the offending one included. *)
Theorem list_sequence_is_all_or_nothing `{RT : Runtime} ptr items item err :
  item ∈ items ->
  toString item = inr err ->
  exists err',
    setValue (PListFlag ptr) (VSlice items) = Return (PListFlag ptr, Some err').
Proof.
  intros Hin Hitem. unfold setValue, toStringSlice.
  destruct (items_to_strings_fails items item err [] Hin Hitem) as [err' ->].
  by exists err'.
Qed.

Lemma list_sequence_is_all_or_nothing_witness :
  exists err',
    setValue (RT := Examples.runtime) (PListFlag (ListFlag.mk (Some ["x"])))
      (VSlice [VString "a"; VNil; VString "b"])
    = Return (PListFlag (ListFlag.mk (Some ["x"])), Some err').
Proof.
  apply (list_sequence_is_all_or_nothing (RT := Examples.runtime)
           (ListFlag.mk (Some ["x"])) [VString "a"; VNil; VString "b"] VNil
           (ErrConvert VNil "string")).
  - apply list_elem_of_further, list_elem_of_here.
  - reflexivity.
Defined.

(** X17. The coercions know the dynamic types float64, string and bool
    (and sequences and maps for the two composite slots) and no other: a
    decoded nil and a decoded [int] are rejected by the slot of every
    type with a conversion error, the slot keeps its value, and a load
    that meets such a value under a registered key stops there. *)
Theorem nil_and_int_are_rejected `{RT : Runtime} c key flagVal value rest :
  flags c !! key = Some flagVal ->
  value = VNil \/ (exists n, value = VInt n) ->
  exists target,
    setValue flagVal value = Return (flagVal, Some (ErrConvert value target))
    /\ setValuesFromMap c ((key, value) :: rest)
       = Return (c, Some (ErrSettingKey key (ErrConvert value target))).
Proof.
  intros Hslot Hvalue.
  assert (Hset : exists target,
             setValue flagVal value
             = Return (flagVal, Some (ErrConvert value target))).
  { destruct Hvalue as [->|[n ->]]; destruct flagVal; by eexists. }
  destruct Hset as [target Hset]. exists target. split; [done|].
  simpl. rewrite Hslot, Hset. by rewrite store_same.
Qed.

Lemma nil_and_int_are_rejected_witness :
  exists target,
    setValue (RT := Examples.runtime) (PInt 8080) (VInt 9090)
    = Return (PInt 8080, Some (ErrConvert (VInt 9090) target))
    /\ setValuesFromMap (RT := Examples.runtime) Examples.settings
         (("port", VInt 9090) :: [("host", VString "example.org")])
       = Return (Examples.settings,
                 Some (ErrSettingKey "port" (ErrConvert (VInt 9090) target))).
Proof.
  apply (nil_and_int_are_rejected (RT := Examples.runtime)
           Examples.settings "port" (PInt 8080) (VInt 9090)).
  - vm_compute. reflexivity.
  - right. by exists 9090.
Defined.

(** ** Errors of a load *)

Lemma setValuesFromMap_error_names_key `{RT : Runtime} c data c' err :
  setValuesFromMap c data = Return (c', Some err) ->
  exists key cause, key ∈ data.*1 /\ err = ErrSettingKey key cause.
Proof.
  revert c. induction data as [|[key value] data IH]; intros c; simpl; [done|].
  assert (Hrest : forall c0,
             setValuesFromMap c0 data = Return (c', Some err) ->
             exists key0 cause, key0 ∈ key :: data.*1 /\ err = ErrSettingKey key0 cause).
  { intros c0 (key0 & cause & Hin & ->)%IH. exists key0, cause.
    split; [by apply list_elem_of_further|done]. }
  destruct (flags c !! key) as [flagVal|]; [|apply Hrest].
  destruct (setValue flagVal value) as [[cell [e|]]|reason]; [|apply Hrest|done].
  intros [= _ <-]. exists key, e. split; [apply list_elem_of_here|done].
Qed.

(** X18. An error of [LoadFile] that is not the error of setting a key
    (the file cannot be read, its extension is not supported, its
    contents do not decode) means that no slot was written: the registry
    is exactly as before the call. *)
Theorem LoadFile_other_errors_change_nothing `{RT : Runtime} w c filename c' err :
  LoadFile w c filename = Return (c', Some err) ->
  (forall key cause, err ≠ ErrSettingKey key cause) ->
  c' = c.
Proof.
  intros Hload Hother.
  assert (Hmap : forall data,
             setValuesFromMap c data = Return (c', Some err) -> c' = c).
  { intros data (key & cause & _ & ->)%setValuesFromMap_error_names_key.
    by destruct (Hother key cause). }
  unfold LoadFile, loadJSON, loadYAML, loadINI in Hload.
  repeat case_match; simplify_eq; try done; by eapply Hmap.
Qed.

Lemma LoadFile_other_errors_change_nothing_witness :
  let w := mkWorld ∅ {["settings.json" := "port: 9090"]} in
  LoadFile (RT := Examples.runtime) w Examples.settings "settings.json"
  = Return (Examples.settings, Some (ErrDecode "json"))
  /\ Examples.settings = Examples.settings.
Proof.
  intros w.
  assert (Hload : LoadFile (RT := Examples.runtime) w Examples.settings "settings.json"
                  = Return (Examples.settings, Some (ErrDecode "json")))
    by (vm_compute; reflexivity).
  split; [exact Hload|].
  apply (LoadFile_other_errors_change_nothing (RT := Examples.runtime)
           w Examples.settings "settings.json" Examples.settings
           (ErrDecode "json") Hload).
  discriminate.
Defined.

(** X19. [loadINI] passes on only the registered keys whose value in the
    unnamed section is not empty: a slot whose key is absent from the
    file, or present with an empty value, is left exactly as it was,
    whatever happens to the other keys. *)
Theorem loadINI_skips_empty_values `{RT : Runtime} c data cfg c' err name :
  ini_Load data = Some cfg ->
  cfg name = "" ->
  loadINI c data = Return (c', err) ->
  flags c' !! name = flags c !! name.
Proof.
  intros Hcfg Hempty. unfold loadINI. rewrite Hcfg.
  apply setValuesFromMap_other.
  intros ([key value] & Hname & (k & _ & Hentry)%list_elem_of_omap)%list_elem_of_fmap.
  simpl in Hname. subst key.
  destruct (String.eqb_spec (cfg k) ""); [done|].
  injection Hentry as -> _. done.
Qed.

Lemma loadINI_skips_empty_values_witness :
  let rt := {| ParseFloat := fun _ => None;
               FormatFloat := fun _ => "";
               convert_out_of_range := fun _ => 0;
               unicode_lower := fun s => s;
               json_Unmarshal := fun _ => None;
               yaml_Unmarshal := fun _ => None;
               ini_Load := fun _ =>
                 Some (fun key => if String.eqb key "port" then "9090" else "");
               range_order := fun keys => keys |} in
  flags (store Examples.settings "port" (PInt 9090)) !! "host"
  = flags Examples.settings !! "host".
Proof.
  intros rt.
  apply (loadINI_skips_empty_values (RT := rt) Examples.settings
           "port = 9090" (fun key => if String.eqb key "port" then "9090" else "")
           _ None "host").
  - reflexivity.
  - reflexivity.
  - vm_compute. reflexivity.
Defined.

(** ** Registration *)

(** X20. A name is registered once: after one of the eight registration
    methods has returned for a name, every further registration under
    that name, of whatever type, panics in package [flag] before
    [c.flags] is written, so the first slot is never replaced. *)
Theorem register_twice_panics CommandLine c name cell CommandLine' c' :
  register CommandLine c name cell = Return (CommandLine', c') ->
  forall c2 cell2,
    register CommandLine' c2 name cell2 = Panic "flag redefined".
Proof.
  unfold register, flag.Var.
  destruct (flag.begins_with_dash name); [done|].
  destruct (flag.contains_equals name); [done|].
  destruct (decide (name ∈ CommandLine)); [done|].
  intros [= <- _] c2 cell2.
  rewrite decide_True; [done|]. set_solver.
Qed.

Lemma register_twice_panics_witness :
  NewString ({["port"]} ∪ ∅) (store New "port" (PInt 8080)) "port" "http" "scheme"
  = Panic "flag redefined".
Proof.
  apply (register_twice_panics ∅ New "port" (PInt 8080)
           ({["port"]} ∪ ∅) (store New "port" (PInt 8080))).
  reflexivity.
Defined.

(** X21. A pair is cut at its first equals sign only: for a key without
    equals sign or comma and a value without comma, which may have
    equals signs of its own, [MapFlag.Set] on the text of the key, an
    equals sign and the value writes the value under the key and leaves
    every other key of the mapping as it was. *)
Theorem MapFlag_Set_one_pair (m : gmap string string) key value :
  strings.Cut key "=" = None ->
  strings.Cut key "," = None ->
  strings.Cut value "," = None ->
  MapFlag.Set_ (MapFlag.mk (Some (make_map m))) (key +:+ "=" +:+ value)
  = Return (MapFlag.mk (Some (make_map (<[key := value]> m))), None).
Proof.
  intros Hequals Hkey Hvalue. unfold MapFlag.Set_. simpl.
  change (key +:+ "=" +:+ value) with (key +:+ String "=" value).
  rewrite Cut_None_Split by (by apply Cut_append_none).
  simpl. unfold strings.SplitN2. by rewrite Cut_append_sep.
Qed.

Lemma MapFlag_Set_one_pair_witness :
  MapFlag.Set_ (MapFlag.mk (Some (make_map {["x" := "1"]}))) ("query" +:+ "=" +:+ "a=b")
  = Return (MapFlag.mk (Some (make_map (<["query" := "a=b"]> {["x" := "1"]}))), None).
Proof.
  apply (MapFlag_Set_one_pair {["x" := "1"]} "query" "a=b"); reflexivity.
Defined.

(** ** The case of the extension *)

(** A byte an extension can be made of: ASCII, and neither the dot nor
    the path separator. *)
Definition extension_byte (c : ascii) : bool :=
  strings.is_ascii c && negb (Ascii.eqb c "/") && negb (Ascii.eqb c ".").

Lemma lower_byte_extension_byte c :
  extension_byte c = true ->
  extension_byte (strings.lower_byte c) = true
  /\ strings.lower_byte (strings.lower_byte c) = strings.lower_byte c.
Proof.
  destruct c as [[] [] [] [] [] [] [] []]; vm_compute; intros; by split.
Qed.

Lemma string_of_list_ascii_snoc l c acc :
  string_of_list_ascii (l ++ [c]) +:+ acc = string_of_list_ascii l +:+ String c acc.
Proof.
  induction l as [|c' l IH]; [done|].
  change (String c' (string_of_list_ascii (l ++ [c]) +:+ acc)
          = String c' (string_of_list_ascii l +:+ String c acc)).
  by f_equal.
Qed.

Lemma ext_scan_extension r before acc :
  forallb extension_byte r = true ->
  filepath.ext_scan (r ++ "."%char :: before) acc
  = String "." (string_of_list_ascii (rev r) +:+ acc).
Proof.
  revert acc. induction r as [|c r IH]; intros acc; simpl; [done|].
  intros [Hc Hr]%andb_prop.
  unfold extension_byte in Hc.
  apply andb_prop in Hc as [[_ Hsep]%andb_prop Hdot].
  apply negb_true_iff in Hsep, Hdot. rewrite Hsep, Hdot.
  rewrite IH by done. by rewrite string_of_list_ascii_snoc.
Qed.

Lemma forallb_list_ascii p s :
  forallb p (list_ascii_of_string s) = strings.all_bytes p s.
Proof. induction s as [|c s IH]; simpl; [done|by rewrite IH]. Qed.

Lemma append_empty_r (s : string) : s +:+ "" = s.
Proof.
  induction s as [|c s IH]; [done|].
  change (String c (s +:+ "") = String c s). by f_equal.
Qed.

Lemma Ext_of_extension stem ext :
  strings.all_bytes extension_byte ext = true ->
  filepath.Ext (stem +:+ "." +:+ ext) = "." +:+ ext.
Proof.
  intros Hext. unfold filepath.Ext.
  change (stem +:+ "." +:+ ext) with (stem +:+ String "." ext).
  rewrite list_ascii_of_string_app. simpl.
  rewrite rev_app_distr. simpl. rewrite <- app_assoc. simpl.
  rewrite ext_scan_extension.
  - rewrite rev_involutive, string_of_list_ascii_of_string.
    by rewrite append_empty_r.
  - rewrite forallb_forall. intros c Hc%in_rev.
    rewrite <- forallb_list_ascii, forallb_forall in Hext. by apply Hext.
Qed.

Lemma ToLower_of_extension lower_runes ext :
  strings.all_bytes extension_byte ext = true ->
  strings.ToLower lower_runes ("." +:+ ext)
  = "." +:+ strings.map_bytes strings.lower_byte ext
  /\ strings.all_bytes extension_byte (strings.map_bytes strings.lower_byte ext) = true
  /\ strings.map_bytes strings.lower_byte (strings.map_bytes strings.lower_byte ext)
     = strings.map_bytes strings.lower_byte ext.
Proof.
  intros Hext.
  assert (Hascii : strings.all_bytes strings.is_ascii ext = true
                   /\ strings.all_bytes extension_byte
                        (strings.map_bytes strings.lower_byte ext) = true
                   /\ strings.map_bytes strings.lower_byte
                        (strings.map_bytes strings.lower_byte ext)
                      = strings.map_bytes strings.lower_byte ext).
  { induction ext as [|c ext IH]; [done|]. simpl in *.
    apply andb_prop in Hext as [Hc Hext].
    destruct (IH Hext) as (-> & -> & ->).
    destruct (lower_byte_extension_byte c Hc) as [-> ->].
    unfold extension_byte in Hc.
    apply andb_prop in Hc as [[-> _]%andb_prop _]. done. }
  destruct Hascii as (Hascii & Hlower & Hidem). split; [|done].
  unfold strings.ToLower.
  change ("." +:+ ext) with (String "." ext). simpl. by rewrite Hascii.
Qed.

(** X22. The extension is matched whatever its case: for every extension
    made of ASCII bytes, in any mix of upper and lower case, loading a
    readable file under that extension returns the same error and
    leaves the same registry as loading a file with the same contents
    under the extension in lower case. *)
Theorem LoadFile_any_case `{RT : Runtime} w1 w2 c stem ext data :
  strings.all_bytes extension_byte ext = true ->
  let lower := strings.map_bytes strings.lower_byte ext in
  files w1 !! (stem +:+ "." +:+ ext) = Some data ->
  files w2 !! (stem +:+ "." +:+ lower) = Some data ->
  LoadFile w1 c (stem +:+ "." +:+ ext) = LoadFile w2 c (stem +:+ "." +:+ lower).
Proof.
  intros Hext lower Hfile1 Hfile2. unfold lower in *. clear lower.
  destruct (ToLower_of_extension unicode_lower ext Hext) as (Hlow & Hlower & Hidem).
  destruct (ToLower_of_extension unicode_lower _ Hlower) as (Hlow' & _ & _).
  unfold LoadFile. rewrite Hfile1, Hfile2.
  rewrite !Ext_of_extension by done.
  rewrite Hlow, Hlow'. by rewrite Hidem.
Qed.

Lemma LoadFile_any_case_witness :
  let text := Examples.json_member "port" "9090" in
  LoadFile (RT := Examples.runtime) (mkWorld ∅ {["etc/app" +:+ "." +:+ "jSoN" := text]})
    Examples.settings ("etc/app" +:+ "." +:+ "jSoN")
  = LoadFile (RT := Examples.runtime) (mkWorld ∅ {["etc/app" +:+ "." +:+ "json" := text]})
      Examples.settings ("etc/app" +:+ "." +:+ "json").
Proof.
  intros text.
  apply (LoadFile_any_case (RT := Examples.runtime) _ _ _ "etc/app" "jSoN" text).
  - reflexivity.
  - vm_compute. reflexivity.
  - vm_compute. reflexivity.
Defined.
